(** * iucollections: [ConcurrentQueue<T>]

    A shallow embedding of [include/iucollections/concurrentqueue.hpp] and
    the verification of its ring-buffer behaviour.

    The C++ class keeps a heap-allocated array [items] together with four
    [std::size_t] members and a [std::mutex].  Objects have identity (the
    assignment operators compare [this] with [&queue]) and two objects may
    point at the same array, so the embedding threads an explicit memory
    through every member function: a table of live queue objects and a
    table of live array blocks.  A member function is a function from
    memories to outcomes; an outcome is a normal return, a thrown C++
    exception, or undefined behaviour.

    Modelling decisions:
    - every member function runs to completion before the next one starts,
      which is the interleaving the per-object mutex allows; the mutex is
      kept as a boolean member so that a second lock by the same caller is
      visible (undefined behaviour);
    - [std::size_t] is 64 bits wide;
    - [new T[n]] is modelled twice: [new_array_answered] takes the answer
      of the free store as an argument, a refusal or a block with
      arbitrary initial content, and is what the constructor is judged
      against; [new_array] is the call on which the block is supplied and
      every element holds one fixed value [T_default], and is what the
      theorems about already constructed or copied queues use;
    - a reference [T &] is a block address with an index, read by [deref];
    - out-of-range indexing, [%] by zero, use of a released block and
      [delete[]] of a released block are undefined behaviour. *)

From Stdlib Require Import ZArith String Lia.
From stdpp Require Import gmap list.

Local Open Scope Z_scope.

(** ** Machine integers *)

(** [std::size_t] on an LP64 target: 64 bits, unsigned, wrapping. *)
Definition SIZE_MAX : Z := 2 ^ 64 - 1.

Definition size_t_wrap (x : Z) : Z := x mod (SIZE_MAX + 1).

Definition is_size_t (x : Z) : Prop := 0 ≤ x ≤ SIZE_MAX.

(** ** Exceptions *)

Inductive exception : Type :=
| underflow_error (what : string)
| overflow_error (what : string)
| bad_alloc.

(** [bad_alloc] is what a failing [new T[n]] throws: [std::bad_alloc] or
    the [std::bad_array_new_length] derived from it.

    The three failures the class itself throws, with the messages of the
    source. *)
Definition InvalidCapacity : exception :=
  underflow_error
    "iucollections::ConcurrentQueue<T> instance cannot have a capacity of 0 items!".

Definition Full : exception :=
  overflow_error "iucollections::ConcurrentQueue<T> instance is full!".

Definition Empty : exception :=
  underflow_error "iucollections::ConcurrentQueue<T> instance is empty!".

(** ** Objects and memory *)

(** Addresses of queue objects and of array blocks. *)
Abbreviation addr := positive (only parsing).
Abbreviation ptr := positive (only parsing).

(** The data members of the class.  [mutex] is [true] while the mutex is
    held. *)
Record ConcurrentQueue : Type := mkQueue {
  mutex : bool;
  items : ptr;
  capacity_ : Z;
  size_ : Z;
  front : Z;
  back : Z
}.

Definition set_mutex (b : bool) (q : ConcurrentQueue) : ConcurrentQueue :=
  mkQueue b (items q) (capacity_ q) (size_ q) (front q) (back q).

Definition set_size (n : Z) (q : ConcurrentQueue) : ConcurrentQueue :=
  mkQueue (mutex q) (items q) (capacity_ q) n (front q) (back q).

Definition set_front (n : Z) (q : ConcurrentQueue) : ConcurrentQueue :=
  mkQueue (mutex q) (items q) (capacity_ q) (size_ q) n (back q).

Definition set_back (n : Z) (q : ConcurrentQueue) : ConcurrentQueue :=
  mkQueue (mutex q) (items q) (capacity_ q) (size_ q) (front q) n.

(** A reference [T &] into an array block: the block and the index. *)
Definition ref : Type := ptr * Z.

(** The circular-increment helper.  In the source it updates a
    [std::size_t &] in place using [this->capacity_]; here it maps the old
    value of the referenced member to its new value.  [%] by zero is
    undefined behaviour, rendered as [None]. *)
Definition safe_increment (capacity_ value : Z) : option Z :=
  let value := if value =? SIZE_MAX then 0 else value in
  if capacity_ =? 0 then None
  else Some (size_t_wrap (value + 1) mod capacity_).

(** The function the specification gives for the helper. *)
Definition spec_circular_advance (capacity index : Z) : Z :=
  (index + 1) mod capacity.

(** The helper with the comparison against [SIZE_MAX] left out. *)
Definition increment_without_sentinel (capacity_ value : Z) : option Z :=
  if capacity_ =? 0 then None
  else Some (size_t_wrap (value + 1) mod capacity_).

(** The helper applied [k] times in a row to the same member. *)
Fixpoint safe_increment_iter (capacity_ : Z) (k : nat) (value : Z) : option Z :=
  match k with
  | O => Some value
  | S k' =>
      match safe_increment capacity_ value with
      | Some value' => safe_increment_iter capacity_ k' value'
      | None => None
      end
  end.

(** The members a push that found room leaves behind, and those a pop that
    found an element leaves behind, in closed form.  [push_stores] and
    [pop_returns] below show that the member functions produce them. *)
Definition pushed (q : ConcurrentQueue) : ConcurrentQueue :=
  mkQueue false (items q) (capacity_ q) (size_ q + 1) (front q)
    ((back q + 1) mod capacity_ q).

Definition popped (q : ConcurrentQueue) : ConcurrentQueue :=
  mkQueue false (items q) (capacity_ q) (size_ q - 1)
    ((front q + 1) mod capacity_ q) (back q).

Section Queue.

(** The element type, and the content of a default-initialised element. *)
Context {T : Type} (T_default : T).

Record memory : Type := mkMemory {
  objects : gmap positive ConcurrentQueue;
  blocks : gmap positive (list T)
}.

Inductive outcome (A : Type) : Type :=
| Ret (a : A) (σ : memory)
| Throw (e : exception) (σ : memory)
| Undefined.

Arguments Ret {A} a σ.
Arguments Throw {A} e σ.
Arguments Undefined {A}.

Definition M (A : Type) : Type := memory → outcome A.

Definition ret {A} (a : A) : M A := λ σ, Ret a σ.

Definition throw {A} (e : exception) : M A := λ σ, Throw e σ.

Definition undefined {A} : M A := λ _, Undefined.

Definition bind {A B} (m : M A) (k : A → M B) : M B := λ σ,
  match m σ with
  | Ret a σ' => k a σ'
  | Throw e σ' => Throw e σ'
  | Undefined => Undefined
  end.

Notation "x <~ m ;; k" := (bind m (λ x, k))
  (at level 100, m at next level, right associativity).
Notation "m ;;; k" := (bind m (λ _, k))
  (at level 100, right associativity).

(** *** Primitive memory operations *)

(** Read the members of the object at [this]. *)
Definition load (this : addr) : M ConcurrentQueue := λ σ,
  match objects σ !! this with
  | Some q => Ret q σ
  | None => Undefined
  end.

(** Overwrite the members of the object at [this]. *)
Definition store (this : addr) (q : ConcurrentQueue) : M unit := λ σ,
  Ret tt (mkMemory (<[this := q]> (objects σ)) (blocks σ)).

Definition modify (this : addr) (f : ConcurrentQueue → ConcurrentQueue) : M unit :=
  q <~ load this ;; store this (f q).

(** [new T[n]] on a call on which the free store supplies the block and
    every element holds [T_default]: a block at an unused address.  The
    call in general is [new_array_answered] below. *)
Definition new_array (n : Z) : M ptr := λ σ,
  let p := fresh (dom (blocks σ)) in
  Ret p (mkMemory (objects σ)
           (<[p := replicate (Z.to_nat n) T_default]> (blocks σ))).

(** [delete [] p]: releasing a block that is not live is undefined. *)
Definition delete_array (p : ptr) : M unit := λ σ,
  match blocks σ !! p with
  | Some _ => Ret tt (mkMemory (objects σ) (delete p (blocks σ)))
  | None => Undefined
  end.

(** [p[i]] as an rvalue; outside the block, or in a dead block, undefined. *)
Definition array_read (p : ptr) (i : Z) : M T := λ σ,
  match blocks σ !! p with
  | Some l =>
      if (0 <=? i) && (i <? Z.of_nat (length l))
      then match l !! Z.to_nat i with
           | Some v => Ret v σ
           | None => Undefined
           end
      else Undefined
  | None => Undefined
  end.

(** [p[i] = v]. *)
Definition array_write (p : ptr) (i : Z) (v : T) : M unit := λ σ,
  match blocks σ !! p with
  | Some l =>
      if (0 <=? i) && (i <? Z.of_nat (length l))
      then Ret tt (mkMemory (objects σ)
                     (<[p := <[Z.to_nat i := v]> l]> (blocks σ)))
      else Undefined
  | None => Undefined
  end.

(** Reading through a reference handed out by [pop] or a peek. *)
Definition deref (r : ref) : M T := array_read (fst r) (snd r).

(** [std::lock_guard<std::mutex> g(o.mutex)] for the scope [body]: the
    mutex is taken on entry and released when the scope is left, by return
    or by exception.  Locking a mutex that is already held is undefined. *)
Definition unlock (this : addr) : M unit :=
  modify this (set_mutex false).

Definition lock_guard {A} (this : addr) (body : M A) : M A := λ σ,
  match objects σ !! this with
  | Some q =>
      if mutex q then Undefined
      else
        match body (mkMemory (<[this := set_mutex true q]> (objects σ)) (blocks σ)) with
        | Ret a σ' => (unlock this ;;; ret a) σ'
        | Throw e σ' => (unlock this ;;; throw e) σ'
        | Undefined => Undefined
        end
  | None => Undefined
  end.

(** An [option] computed without touching memory; [None] is undefined
    behaviour. *)
Definition lift {A} (o : option A) : M A :=
  match o with
  | Some a => ret a
  | None => undefined
  end.

(** ** Member functions *)

(** [ConcurrentQueue(const std::size_t capacity)] on a call on which its
    [new T[capacity]] succeeds (see [new_array]; [construct_alloc] below is
    the constructor with the allocation's answer made explicit).  [this]
    is the storage the object is built in.  When the constructor throws no
    object comes into existence and nothing was allocated. *)
Definition construct (this : addr) (capacity : Z) : M unit :=
  if capacity =? 0 then throw InvalidCapacity
  else
    let back := size_t_wrap (capacity - 1) in
    p <~ new_array capacity ;;
    store this (mkQueue false p capacity 0 0 back).

(** The loop [for (i = 0; i < queue.capacity_; ++i)
    this->items[i] = queue.items[i];] entered with counter [i] and [n]
    iterations to go.  The body changes neither [queue.capacity_] nor [i],
    so the loop started at 0 runs [capacity_] times. *)
Fixpoint copy_items (this queue : addr) (i : Z) (n : nat) : M unit :=
  match n with
  | O => ret tt
  | S n' =>
      src <~ load queue ;;
      dst <~ load this ;;
      v <~ array_read (items src) i ;;
      array_write (items dst) i v ;;;
      copy_items this queue (size_t_wrap (i + 1)) n'
  end.

(** The members a copy or move takes over from [src], with array [p]. *)
Definition adopt (m : bool) (p : ptr) (src : ConcurrentQueue) : ConcurrentQueue :=
  mkQueue m p (capacity_ src) (size_ src) (front src) (back src).

(** [ConcurrentQueue(const ConcurrentQueue & queue)]. *)
Definition copy_construct (this queue : addr) : M unit :=
  lock_guard queue (
    src <~ load queue ;;
    p <~ new_array (capacity_ src) ;;
    store this (adopt false p src) ;;;
    copy_items this queue 0 (Z.to_nat (capacity_ src))).

(** [ConcurrentQueue(ConcurrentQueue && queue)].  Each element is
    move-assigned into a new block (for the element types considered here a
    move leaves the same value in the destination as a copy), then the
    source's block is released; the source's members are not touched. *)
Definition move_construct (this queue : addr) : M unit :=
  lock_guard queue (
    src <~ load queue ;;
    p <~ new_array (capacity_ src) ;;
    store this (adopt false p src) ;;;
    copy_items this queue 0 (Z.to_nat (capacity_ src)) ;;;
    src <~ load queue ;;
    delete_array (items src)).

(** [~ConcurrentQueue()]: releases the block under the lock; afterwards the
    object is gone. *)
Definition destroy (this : addr) : M unit :=
  lock_guard this (q <~ load this ;; delete_array (items q)) ;;;
  (λ σ, Ret tt (mkMemory (delete this (objects σ)) (blocks σ))).

(** [operator=(const ConcurrentQueue & queue)]; returns [*this].  Both
    guards are constructed before [this == &queue] is tested. *)
Definition copy_assign (this queue : addr) : M addr :=
  lock_guard this (lock_guard queue (
    if decide (this = queue) then ret this
    else
      dst <~ load this ;;
      delete_array (items dst) ;;;
      src <~ load queue ;;
      p <~ new_array (capacity_ src) ;;
      modify this (λ d, adopt (mutex d) p src) ;;;
      copy_items this queue 0 (Z.to_nat (capacity_ src)) ;;;
      ret this)).

(** [operator=(ConcurrentQueue && queue)]; returns [*this]. *)
Definition move_assign (this queue : addr) : M addr :=
  lock_guard this (lock_guard queue (
    if decide (this = queue) then ret this
    else
      dst <~ load this ;;
      delete_array (items dst) ;;;
      src <~ load queue ;;
      modify this (λ d, adopt (mutex d) (items src) src) ;;;
      ret this)).

(** [size()] and [capacity()] read their member without the lock. *)
Definition size (this : addr) : M Z :=
  q <~ load this ;; ret (size_ q).

Definition capacity (this : addr) : M Z :=
  q <~ load this ;; ret (capacity_ q).

Definition empty (this : addr) : M bool :=
  lock_guard this (q <~ load this ;; ret (size_ q =? 0)).

Definition full (this : addr) : M bool :=
  lock_guard this (q <~ load this ;; ret (size_ q =? capacity_ q)).

(** [peek_front()] and [peek_back()] return [items[front]] and
    [items[back]] by reference. *)
Definition peek_front (this : addr) : M ref :=
  lock_guard this (q <~ load this ;; ret (items q, front q)).

Definition peek_back (this : addr) : M ref :=
  lock_guard this (q <~ load this ;; ret (items q, back q)).

(** [push(const T & item)]. *)
Definition push (this : addr) (item : T) : M unit :=
  lock_guard this (
    q <~ load this ;;
    if size_ q =? capacity_ q then throw Full
    else
      b <~ lift (safe_increment (capacity_ q) (back q)) ;;
      modify this (set_back b) ;;;
      q <~ load this ;;
      array_write (items q) (back q) item ;;;
      modify this (λ q, set_size (size_t_wrap (size_ q + 1)) q)).

(** [push(T && item)]: the same statements, the element is move-assigned. *)
Definition push_move (this : addr) (item : T) : M unit :=
  lock_guard this (
    q <~ load this ;;
    if size_ q =? capacity_ q then throw Full
    else
      b <~ lift (safe_increment (capacity_ q) (back q)) ;;
      modify this (set_back b) ;;;
      q <~ load this ;;
      array_write (items q) (back q) item ;;;
      modify this (λ q, set_size (size_t_wrap (size_ q + 1)) q)).

(** [pop()] returns [items[front]] by reference, taken before [front] is
    advanced. *)
Definition pop (this : addr) : M ref :=
  lock_guard this (
    q <~ load this ;;
    if size_ q =? 0 then throw Empty
    else
      let result := (items q, front q) in
      f <~ lift (safe_increment (capacity_ q) (front q)) ;;
      modify this (set_front f) ;;;
      modify this (λ q, set_size (size_t_wrap (size_ q - 1)) q) ;;;
      ret result).

(** ** Client-side combinators *)

(** Pop and read the returned reference at once. *)
Definition pop_value (this : addr) : M T :=
  r <~ pop this ;; deref r.

Definition peek_front_value (this : addr) : M T :=
  r <~ peek_front this ;; deref r.

Definition peek_back_value (this : addr) : M T :=
  r <~ peek_back this ;; deref r.

(** Push the values of a list, first to last. *)
Fixpoint push_all (this : addr) (vs : list T) : M unit :=
  match vs with
  | [] => ret tt
  | v :: vs' => push this v ;;; push_all this vs'
  end.

(** Pop [n] times, collecting the values in the order they come out. *)
Fixpoint pop_n (this : addr) (n : nat) : M (list T) :=
  match n with
  | O => ret []
  | S n' => v <~ pop_value this ;; vs <~ pop_n this n' ;; ret (v :: vs)
  end.

(** A client that calls [push] and [pop] in some order and catches what
    they throw. *)
Inductive op : Type :=
| OpPush (v : T)
| OpPop.

Definition apply_op (this : addr) (o : op) : M unit :=
  match o with
  | OpPush v => push this v
  | OpPop => pop this ;;; ret tt
  end.

(** The memory a call leaves behind, unless its behaviour is undefined. *)
Definition after {A} (o : outcome A) : option memory :=
  match o with
  | Ret _ σ | Throw _ σ => Some σ
  | Undefined => None
  end.

(** What a call hands to its caller: a value or an exception. *)
Definition result_of {A} (o : outcome A) : option (A + exception) :=
  match o with
  | Ret a _ => Some (inl a)
  | Throw e _ => Some (inr e)
  | Undefined => None
  end.

Fixpoint run_ops (this : addr) (os : list op) (σ : memory) : option memory :=
  match os with
  | [] => Some σ
  | o :: os' =>
      match after (apply_op this o σ) with
      | Some σ' => run_ops this os' σ'
      | None => None
      end
  end.

(** Everything a caller can learn from the queue at [this]: its size, the
    values its peeks refer to, and the values [n] pops hand out. *)
Definition observe (this : addr) (n : nat) (σ : memory) :=
  (result_of (size this σ),
   result_of (peek_front_value this σ),
   result_of (peek_back_value this σ),
   result_of (pop_n this n σ)).

(** ** State predicates *)

(** The members of the object at [this] together with its array. *)
Definition snapshot (this : addr) (σ : memory) : option (ConcurrentQueue * list T) :=
  match objects σ !! this with
  | Some q =>
      match blocks σ !! items q with
      | Some l => Some (q, l)
      | None => None
      end
  | None => None
  end.

(** The ranges of the index members and of the count. *)
Definition ring_inv (q : ConcurrentQueue) : Prop :=
  0 ≤ front q < capacity_ q ∧ 0 ≤ back q < capacity_ q ∧
  0 ≤ size_ q ≤ capacity_ q.

Definition state_inv (σ : memory) : Prop :=
  ∀ a q, objects σ !! a = Some q → ring_inv q.

(** A property of the memory a call leaves behind. *)
Definition post {A} (P : memory → Prop) (o : outcome A) : Prop :=
  match o with
  | Ret _ σ | Throw _ σ => P σ
  | Undefined => True
  end.

(** [m] keeps [state_inv], whether it returns or throws, and returns only
    values that satisfy [Q]. *)
Definition inv_triple {A} (m : M A) (Q : A → Prop) : Prop :=
  ∀ σ, state_inv σ →
    match m σ with
    | Ret a σ' => state_inv σ' ∧ Q a
    | Throw _ σ' => state_inv σ'
    | Undefined => True
    end.

(** The object at [this] is a live queue [q] that owns the live array [l]
    of [capacity_ q] elements, its mutex is free and its members are in
    range. *)
Record queue_ok (σ : memory) (this : addr) (q : ConcurrentQueue) (l : list T) : Prop := {
  ok_object : objects σ !! this = Some q;
  ok_mutex : mutex q = false;
  ok_block : blocks σ !! items q = Some l;
  ok_length : Z.of_nat (length l) = capacity_ q;
  ok_capacity : capacity_ q ≤ SIZE_MAX;
  ok_ring : ring_inv q
}.

(** [σ'] differs from [σ] at most in the object at [this] and the block
    [p]. *)
Definition same_elsewhere (this p : positive) (σ σ' : memory) : Prop :=
  (∀ a, a ≠ this → objects σ' !! a = objects σ !! a) ∧
  (∀ b, b ≠ p → blocks σ' !! b = blocks σ !! b).

(** [back] trails [front] by the number of stored elements. *)
Definition linked (q : ConcurrentQueue) : Prop :=
  back q = (front q + size_ q + capacity_ q - 1) mod capacity_ q.

(** The array index of the [k]-th oldest element. *)
Definition slot (q : ConcurrentQueue) (k : Z) : Z :=
  (front q + k) mod capacity_ q.

(** The queue holds exactly the values [vs], oldest first. *)
Definition holds (q : ConcurrentQueue) (l : list T) (vs : list T) : Prop :=
  Z.of_nat (length vs) = size_ q ∧
  ∀ (k : nat) v, vs !! k = Some v → l !! Z.to_nat (slot q (Z.of_nat k)) = Some v.

(** ** Allocation as the free store answers it *)

(** What the free store answers to one [new T[n]]: it refuses, or it
    supplies a block in which element [i] initially holds [content i]
    (default-constructed for a class type, whatever the storage held for
    a scalar type). *)
Inductive new_result : Type :=
| Refused
| Supplied (content : nat → T).

(** [new T[n]] for elements of [sizeof_T] bytes.  A request whose byte
    count is not representable in [std::size_t] is never passed to the
    free store; any other request is decided by its answer.  Both failures
    throw, and nothing is allocated. *)
Definition new_array_answered (sizeof_T : Z) (answer : new_result) (n : Z) : M ptr :=
  if SIZE_MAX <? n * sizeof_T then throw bad_alloc
  else
    match answer with
    | Refused => throw bad_alloc
    | Supplied content => λ σ,
        let p := fresh (dom (blocks σ)) in
        Ret p (mkMemory (objects σ)
                 (<[p := map content (seq 0 (Z.to_nat n))]> (blocks σ)))
    end.

(** [ConcurrentQueue(const std::size_t capacity)] with the answer of the
    free store to its [new T[capacity]].  The test for capacity 0 comes
    first; an exception from [new] leaves the constructor, so no object
    comes into existence. *)
Definition construct_alloc (sizeof_T : Z) (answer : new_result)
    (this : addr) (capacity : Z) : M unit :=
  if capacity =? 0 then throw InvalidCapacity
  else
    let back := size_t_wrap (capacity - 1) in
    p <~ new_array_answered sizeof_T answer capacity ;;
    store this (mkQueue false p capacity 0 0 back).

(** ** A client that keeps what the queue hands out *)

(** One call, with the value a pop refers to read at once. *)
Definition exec_op (this : addr) (o : op) : M (option T) :=
  match o with
  | OpPush v => push this v ;;; ret None
  | OpPop => v <~ pop_value this ;; ret (Some v)
  end.

(** The calls [os] in order, every exception caught and recorded; [None]
    when a call has undefined behaviour. *)
Fixpoint trace (this : addr) (os : list op) (σ : memory)
  : option (list (option T + exception) * memory) :=
  match os with
  | [] => Some ([], σ)
  | o :: os' =>
      match exec_op this o σ with
      | Ret r σ' =>
          match trace this os' σ' with
          | Some (rs, σ'') => Some (inl r :: rs, σ'')
          | None => None
          end
      | Throw e σ' =>
          match trace this os' σ' with
          | Some (rs, σ'') => Some (inr e :: rs, σ'')
          | None => None
          end
      | Undefined => None
      end
  end.

(** The reference the ring buffer is compared with: a list of at most
    [cap] values, extended at the end and shortened at the front. *)
Definition fifo_step (cap : Z) (o : op) (vs : list T)
  : (option T + exception) * list T :=
  match o with
  | OpPush v =>
      if Z.of_nat (length vs) =? cap then (inr Full, vs) else (inl None, vs ++ [v])
  | OpPop =>
      match vs with
      | [] => (inr Empty, [])
      | v :: vs' => (inl (Some v), vs')
      end
  end.

Fixpoint fifo_run (cap : Z) (os : list op) (vs : list T)
  : list (option T + exception) * list T :=
  match os with
  | [] => ([], vs)
  | o :: os' =>
      let '(r, vs') := fifo_step cap o vs in
      let '(rs, vs'') := fifo_run cap os' vs' in
      (r :: rs, vs'')
  end.

End Queue.

Arguments Ret {T A} a σ.
Arguments Throw {T A} e σ.
Arguments Undefined {T A}.

Local Notation "x <~ m ;; k" := (bind m (λ x, k))
  (at level 100, m at next level, right associativity).
Local Notation "m ;;; k" := (bind m (λ _, k))
  (at level 100, right associativity).

(** ** Concrete queues of integers

    [ConcurrentQueue<int>], with 0 for the content of a default-initialised
    element, used to run the member functions on explicit memories. *)

Module Example.

Definition A : positive := 1%positive.
Definition B : positive := 2%positive.

(** No object and no block. *)
Definition blank : memory (T := Z) := mkMemory ∅ ∅.

(** The members of a queue just constructed with capacity 3 over block 1. *)
Definition q3 : ConcurrentQueue := mkQueue false 1%positive 3 0 0 2.

(** [ConcurrentQueue<int> a(3);] *)
Definition mem3 : memory (T := Z) :=
  mkMemory {[A := q3]} {[1%positive := [0; 0; 0]]}.

(** [a] after [a.push(7);] *)
Definition q3_one : ConcurrentQueue := mkQueue false 1%positive 3 1 0 0.

Definition mem3_one : memory (T := Z) :=
  mkMemory {[A := q3_one]} {[1%positive := [7; 0; 0]]}.

(** [a] as above and a second queue [b] of capacity 2 over block 2. *)
Definition q2 : ConcurrentQueue := mkQueue false 2%positive 2 0 0 1.

Definition mem32 : memory (T := Z) :=
  mkMemory {[A := q3; B := q2]} {[1%positive := [0; 0; 0]; 2%positive := [0; 0]]}.

(** [a] holding 7 and the empty [b] side by side. *)
Definition mem32_one : memory (T := Z) :=
  mkMemory {[A := q3_one; B := q2]} {[1%positive := [7; 0; 0]; 2%positive := [0; 0]]}.

(** A run that fills the queue, is refused, wraps around and drains. *)
Definition busy : list (op (T := Z)) :=
  [OpPush 1; OpPush 2; OpPush 3; OpPush 4; OpPop; OpPush 4;
   OpPop; OpPop; OpPop; OpPop].

(** [ConcurrentQueue<int> a(3); a.push(7); a.pop();] *)
Definition drained : M (T := Z) unit :=
  construct 0 A 3 ;;; push A 7 ;;; pop A ;;; ret tt.

(** [ConcurrentQueue<int> a(2); a.push(5);] *)
Definition one_of_two : M (T := Z) unit :=
  construct 0 A 2 ;;; push A 5.

(** ... followed by [ConcurrentQueue<int> b(std::move(a));] *)
Definition moved_by_constructor : M (T := Z) unit :=
  one_of_two ;;; move_construct 0 B A.

(** ... or by [ConcurrentQueue<int> b(1); b = std::move(a);] *)
Definition moved_by_assignment : M (T := Z) positive :=
  one_of_two ;;; construct 0 B 1 ;;; move_assign B A.

End Example.

(** * Properties *)

Section Properties.

Context {T : Type} (T_default : T).

Implicit Types (σ : memory (T := T)) (q : ConcurrentQueue) (l : list T).

Local Abbreviation inv_triple := (@inv_triple T _) (only parsing).

(** ** Closed forms of the member functions *)

(** Taking and releasing an unlocked mutex restores the members. *)
Lemma unlock_lock q : mutex q = false → set_mutex false (set_mutex true q) = q.
Proof. destruct q; simpl; intros ->; reflexivity. Qed.

Lemma relock this q (objs : gmap positive ConcurrentQueue) :
  objs !! this = Some q → mutex q = false →
  <[this := set_mutex false (set_mutex true q)]> (<[this := set_mutex true q]> objs) = objs.
Proof.
  intros Hq Hm. rewrite insert_insert_eq, unlock_lock by assumption.
  by apply insert_id.
Qed.

Ltac unfold_ops :=
  unfold push, push_move, pop, peek_front, peek_back, full, empty, size, capacity,
    lock_guard, unlock, modify, load, store, bind, ret, throw, lift, undefined,
    array_write, array_read, deref; simpl.

Ltac mred :=
  repeat (progress (cbn [objects blocks fst snd mutex items capacity_ size_ front back
                          set_mutex set_size set_front set_back adopt];
                    rewrite ?lookup_insert_eq)).

Lemma push_eq this v σ q :
  objects σ !! this = Some q → mutex q = false →
  push this v σ =
    if size_ q =? capacity_ q then Throw Full σ
    else
      match safe_increment (capacity_ q) (back q) with
      | None => Undefined
      | Some b =>
          match blocks σ !! items q with
          | None => Undefined
          | Some l =>
              if (0 <=? b) && (b <? Z.of_nat (length l))
              then Ret tt (mkMemory
                     (<[this := set_size (size_t_wrap (size_ q + 1)) (set_back b q)]> (objects σ))
                     (<[items q := <[Z.to_nat b := v]> l]> (blocks σ)))
              else Undefined
          end
      end.
Proof.
  intros Hq Hm. destruct σ as [objs blks]; simpl in *.
  unfold_ops. rewrite Hq, Hm. mred.
  destruct (size_ q =? capacity_ q).
  - mred. by rewrite relock.
  - destruct (safe_increment (capacity_ q) (back q)) as [b|]; unfold ret; mred; [|done].
    destruct (blks !! items q) as [l|]; mred; [|done].
    destruct ((0 <=? b) && (b <? Z.of_nat (length l))); mred; [|done].
    rewrite !insert_insert_eq.
    destruct q; simpl in *; subst; reflexivity.
Qed.

Lemma push_move_eq this v : push_move this v = push (T := T) this v.
Proof. reflexivity. Qed.

Lemma pop_eq this σ q :
  objects σ !! this = Some q → mutex q = false →
  pop this σ =
    if size_ q =? 0 then Throw Empty σ
    else
      match safe_increment (capacity_ q) (front q) with
      | None => Undefined
      | Some f =>
          Ret (items q, front q)
            (mkMemory
               (<[this := set_size (size_t_wrap (size_ q - 1)) (set_front f q)]> (objects σ))
               (blocks σ))
      end.
Proof.
  intros Hq Hm. destruct σ as [objs blks]; simpl in *.
  unfold_ops. rewrite Hq, Hm. mred.
  destruct (size_ q =? 0).
  - mred. by rewrite relock.
  - destruct (safe_increment (capacity_ q) (front q)) as [f|]; unfold ret; mred; [|done].
    rewrite !insert_insert_eq.
    destruct q; simpl in *; subst; reflexivity.
Qed.

Lemma peek_front_eq this σ q :
  objects σ !! this = Some q → mutex q = false →
  peek_front this σ = Ret (items q, front q) σ.
Proof.
  intros Hq Hm. destruct σ as [objs blks]; simpl in *.
  unfold_ops. rewrite Hq, Hm. mred. by rewrite relock.
Qed.

Lemma peek_back_eq this σ q :
  objects σ !! this = Some q → mutex q = false →
  peek_back this σ = Ret (items q, back q) σ.
Proof.
  intros Hq Hm. destruct σ as [objs blks]; simpl in *.
  unfold_ops. rewrite Hq, Hm. mred. by rewrite relock.
Qed.

Lemma full_eq this σ q :
  objects σ !! this = Some q → mutex q = false →
  full this σ = Ret (size_ q =? capacity_ q) σ.
Proof.
  intros Hq Hm. destruct σ as [objs blks]; simpl in *.
  unfold_ops. rewrite Hq, Hm. mred. by rewrite relock.
Qed.

Lemma empty_eq this σ q :
  objects σ !! this = Some q → mutex q = false →
  empty this σ = Ret (size_ q =? 0) σ.
Proof.
  intros Hq Hm. destruct σ as [objs blks]; simpl in *.
  unfold_ops. rewrite Hq, Hm. mred. by rewrite relock.
Qed.

Lemma size_eq this σ q :
  objects σ !! this = Some q → size this σ = Ret (size_ q) σ.
Proof. intros Hq. unfold_ops. by rewrite Hq. Qed.

Lemma capacity_eq this σ q :
  objects σ !! this = Some q → capacity this σ = Ret (capacity_ q) σ.
Proof. intros Hq. unfold_ops. by rewrite Hq. Qed.

Lemma construct_eq this c σ :
  construct T_default this c σ =
    if c =? 0 then Throw InvalidCapacity σ
    else
      let p := fresh (dom (blocks σ)) in
      Ret tt (mkMemory
                (<[this := mkQueue false p c 0 0 (size_t_wrap (c - 1))]> (objects σ))
                (<[p := replicate (Z.to_nat c) T_default]> (blocks σ))).
Proof. unfold construct. destruct (c =? 0); reflexivity. Qed.

Lemma array_read_eq p i σ l v :
  blocks σ !! p = Some l → 0 ≤ i → l !! Z.to_nat i = Some v →
  array_read p i σ = Ret v σ.
Proof.
  intros Hp Hi Hv. unfold array_read. rewrite Hp.
  apply lookup_lt_Some in Hv as Hlt.
  replace ((0 <=? i) && (i <? Z.of_nat (length l))) with true.
  - by rewrite Hv.
  - symmetry. apply andb_true_iff. split; [apply Z.leb_le | apply Z.ltb_lt]; lia.
Qed.

(** ** Arithmetic of the circular increment *)

Lemma size_t_wrap_id x : is_size_t x → size_t_wrap x = x.
Proof. unfold is_size_t, size_t_wrap. intros H. apply Z.mod_small. lia. Qed.

Lemma safe_increment_in_range cap v :
  0 ≤ v < cap → cap ≤ SIZE_MAX →
  safe_increment cap v = Some ((v + 1) mod cap).
Proof.
  intros Hv Hc. unfold safe_increment.
  destruct (Z.eqb_spec v SIZE_MAX) as [->|_]; [lia|].
  destruct (Z.eqb_spec cap 0) as [->|_]; [lia|].
  rewrite size_t_wrap_id; [done | unfold is_size_t; lia].
Qed.

Lemma safe_increment_bounds cap v r :
  safe_increment cap v = Some r → 0 < cap → 0 ≤ r < cap.
Proof.
  unfold safe_increment. destruct (cap =? 0); [done|].
  intros [= <-] Hc. by apply Z.mod_pos_bound.
Qed.

Lemma linked_back_succ q :
  0 < capacity_ q → linked q →
  (back q + 1) mod capacity_ q = slot q (size_ q).
Proof.
  unfold linked, slot. intros Hc ->.
  rewrite Zplus_mod_idemp_l.
  replace (front q + size_ q + capacity_ q - 1 + 1)
    with (front q + size_ q + 1 * capacity_ q) by lia.
  by rewrite Z_mod_plus_full.
Qed.

Lemma slot_succ_front q k :
  slot (set_front ((front q + 1) mod capacity_ q) q) k = slot q (k + 1).
Proof.
  unfold slot; simpl. rewrite Zplus_mod_idemp_l. f_equal. lia.
Qed.

Lemma slot_bounds q k : 0 < capacity_ q → 0 ≤ slot q k < capacity_ q.
Proof. intros Hc. by apply Z.mod_pos_bound. Qed.

(** Two positions less than a full turn apart land in different slots. *)
Lemma slot_inj q j k :
  0 < capacity_ q → 0 ≤ j < k → k < capacity_ q → slot q j ≠ slot q k.
Proof.
  unfold slot. intros Hc Hj Hk Heq.
  assert (Hd : (k - j) mod capacity_ q = 0).
  { replace (k - j) with ((front q + k) - (front q + j)) by lia.
    rewrite Zminus_mod, Heq, Z.sub_diag. by apply Z.mod_0_l, Z.neq_sym, Z.lt_neq. }
  rewrite Z.mod_small in Hd by lia. lia.
Qed.

(** ** Closed forms on a well-formed queue *)

Lemma push_full_throws this v σ q l :
  queue_ok σ this q l → size_ q = capacity_ q → push this v σ = Throw Full σ.
Proof.
  intros [Hq Hm _ _ _ _] Hs. rewrite (push_eq _ _ _ _ Hq Hm).
  by rewrite (proj2 (Z.eqb_eq _ _) Hs).
Qed.

Lemma push_stores this v σ q l :
  queue_ok σ this q l → size_ q < capacity_ q →
  push this v σ =
    Ret tt (mkMemory (<[this := pushed q]> (objects σ))
              (<[items q := <[Z.to_nat ((back q + 1) mod capacity_ q) := v]> l]> (blocks σ))).
Proof.
  intros [Hq Hm Hb Hl Hc (Hf & Hbk & Hs)] Hlt. rewrite (push_eq _ _ _ _ Hq Hm).
  destruct (Z.eqb_spec (size_ q) (capacity_ q)) as [?|_]; [lia|].
  rewrite safe_increment_in_range, Hb by lia.
  pose proof (Z.mod_pos_bound (back q + 1) (capacity_ q) ltac:(lia)) as Hr.
  replace ((0 <=? _) && (_ <? Z.of_nat (length l))) with true.
  - rewrite size_t_wrap_id by (unfold is_size_t; lia).
    destruct q; simpl in *; subst; reflexivity.
  - symmetry. apply andb_true_iff. split; [apply Z.leb_le | apply Z.ltb_lt]; lia.
Qed.

Lemma push_keeps_ok this v σ q l :
  queue_ok σ this q l → size_ q < capacity_ q →
  queue_ok
    (mkMemory (<[this := pushed q]> (objects σ))
       (<[items q := <[Z.to_nat ((back q + 1) mod capacity_ q) := v]> l]> (blocks σ)))
    this (pushed q) (<[Z.to_nat ((back q + 1) mod capacity_ q) := v]> l).
Proof.
  intros [Hq Hm Hb Hl Hc (Hf & Hbk & Hs)] Hlt.
  pose proof (Z.mod_pos_bound (back q + 1) (capacity_ q) ltac:(lia)) as Hr.
  split; simpl; rewrite ?lookup_insert_eq, ?length_insert; try done.
  unfold ring_inv; simpl. lia.
Qed.

Lemma pop_empty_throws this σ q l :
  queue_ok σ this q l → size_ q = 0 → pop this σ = Throw Empty σ.
Proof.
  intros [Hq Hm _ _ _ _] Hs. rewrite (pop_eq _ _ _ Hq Hm).
  by rewrite (proj2 (Z.eqb_eq _ _) Hs).
Qed.

Lemma pop_returns this σ q l :
  queue_ok σ this q l → 0 < size_ q →
  pop this σ =
    Ret (items q, front q)
      (mkMemory (<[this := popped q]> (objects σ)) (blocks σ)).
Proof.
  intros [Hq Hm Hb Hl Hc (Hf & Hbk & Hs)] Hlt. rewrite (pop_eq _ _ _ Hq Hm).
  destruct (Z.eqb_spec (size_ q) 0) as [?|_]; [lia|].
  rewrite safe_increment_in_range by lia.
  rewrite size_t_wrap_id by (unfold is_size_t; lia).
  destruct q; simpl in *; subst; reflexivity.
Qed.

Lemma pop_keeps_ok this σ q l :
  queue_ok σ this q l → 0 < size_ q →
  queue_ok (mkMemory (<[this := popped q]> (objects σ)) (blocks σ))
    this (popped q) l.
Proof.
  intros [Hq Hm Hb Hl Hc (Hf & Hbk & Hs)] Hlt.
  pose proof (Z.mod_pos_bound (front q + 1) (capacity_ q) ltac:(lia)) as Hr.
  split; simpl; rewrite ?lookup_insert_eq; try done.
  unfold ring_inv; simpl. lia.
Qed.

(** ** The stored values under push and pop *)

Lemma push_holds q l vs v :
  ring_inv q → linked q → Z.of_nat (length l) = capacity_ q →
  size_ q < capacity_ q → holds q l vs →
  holds (pushed q) (<[Z.to_nat ((back q + 1) mod capacity_ q) := v]> l) (vs ++ [v])
  ∧ linked (pushed q).
Proof.
  intros (Hf & Hb & Hs) Hlk Hl Hlt [Hlen Hvs].
  assert (Hc : 0 < capacity_ q) by lia.
  rewrite (linked_back_succ _ Hc Hlk). split; [split|].
  - rewrite length_app; simpl. lia.
  - intros k w Hk. change (slot (pushed q) (Z.of_nat k)) with (slot q (Z.of_nat k)).
    pose proof (slot_bounds q (size_ q) Hc) as Hb1.
    pose proof (slot_bounds q (Z.of_nat k) Hc) as Hb2.
    destruct (decide (k < length vs)%nat) as [Hin|Hout].
    + rewrite lookup_app_l in Hk by done.
      rewrite list_lookup_insert_ne; [by apply Hvs|].
      intros Heq. apply Z2Nat.inj in Heq; [|lia..].
      symmetry in Heq. revert Heq. apply slot_inj; lia.
    + apply lookup_lt_Some in Hk as Hk'. rewrite length_app in Hk'; simpl in Hk'.
      assert (k = length vs) as -> by lia.
      rewrite lookup_app_r, Nat.sub_diag in Hk by lia. injection Hk as <-.
      rewrite Hlen. apply list_lookup_insert_eq. lia.
  - unfold linked; simpl. rewrite (linked_back_succ _ Hc Hlk). unfold slot.
    replace (front q + (size_ q + 1) + capacity_ q - 1)
      with (front q + size_ q + 1 * capacity_ q) by lia.
    by rewrite Z_mod_plus_full.
Qed.

Lemma pop_holds q l v vs :
  ring_inv q → linked q → holds q l (v :: vs) →
  l !! Z.to_nat (front q) = Some v ∧ holds (popped q) l vs ∧ linked (popped q).
Proof.
  intros (Hf & Hb & Hs) Hlk [Hlen Hvs]. simpl in Hlen. split; [|split; [split|]].
  - specialize (Hvs 0%nat v eq_refl). unfold slot in Hvs; simpl in Hvs.
    by rewrite Z.add_0_r, Z.mod_small in Hvs.
  - simpl. lia.
  - intros k w Hk. specialize (Hvs (S k) w Hk).
    unfold slot in *; simpl. rewrite Zplus_mod_idemp_l.
    by replace (front q + 1 + Z.of_nat k) with (front q + Z.of_nat (S k)) by lia.
  - unfold linked in *; simpl. rewrite Hlk.
    replace ((front q + 1) mod capacity_ q + (size_ q - 1) + capacity_ q - 1)
      with ((front q + 1) mod capacity_ q + (size_ q + capacity_ q - 2)) by lia.
    rewrite Zplus_mod_idemp_l. f_equal. lia.
Qed.

Lemma construct_ok this c σ :
  1 ≤ c ≤ SIZE_MAX →
  ∃ σ' q l,
    construct T_default this c σ = Ret tt σ' ∧ queue_ok σ' this q l ∧
    linked q ∧ holds q l [] ∧ capacity_ q = c ∧ size_ q = 0.
Proof.
  intros Hc. rewrite construct_eq.
  destruct (Z.eqb_spec c 0) as [?|_]; [lia|]. cbv zeta.
  rewrite size_t_wrap_id by (unfold is_size_t; lia).
  eexists _, (mkQueue false _ c 0 0 (c - 1)), (replicate (Z.to_nat c) T_default).
  split; [reflexivity|]. split; [split|].
  - cbn. by rewrite lookup_insert_eq.
  - done.
  - cbn. by rewrite lookup_insert_eq.
  - cbn. rewrite length_replicate. lia.
  - cbn. lia.
  - unfold ring_inv; cbn. lia.
  - split_and!; try done.
    unfold linked; cbn. rewrite Z.mod_small; lia.
Qed.

Lemma push_all_ok this vs : ∀ σ q l vs0,
  queue_ok σ this q l → linked q → holds q l vs0 →
  size_ q + Z.of_nat (length vs) ≤ capacity_ q →
  ∃ σ' q' l',
    push_all this vs σ = Ret tt σ' ∧ queue_ok σ' this q' l' ∧ linked q' ∧
    holds q' l' (vs0 ++ vs) ∧ capacity_ q' = capacity_ q ∧
    size_ q' = size_ q + Z.of_nat (length vs).
Proof.
  induction vs as [|v vs IH]; intros σ q l vs0 Hok Hlk Hh Hroom; simpl in *.
  - exists σ, q, l. rewrite app_nil_r. split_and!; try done; lia.
  - assert (Hlt : size_ q < capacity_ q) by lia.
    pose proof (push_keeps_ok this v _ _ _ Hok Hlt) as Hok'.
    destruct (push_holds q l vs0 v (ok_ring _ _ _ _ Hok) Hlk (ok_length _ _ _ _ Hok) Hlt Hh)
      as [Hh' Hlk'].
    destruct (IH _ _ _ _ Hok' Hlk' Hh') as (σ' & q' & l' & Hrun & Hok'' & Hlk'' & Hh'' & Hc & Hs).
    { simpl. lia. }
    exists σ', q', l'. unfold bind. rewrite (push_stores _ _ _ _ _ Hok Hlt), Hrun.
    rewrite <- app_assoc in Hh''. simpl in *. split_and!; try done; lia.
Qed.

Lemma pop_value_ok this σ q l v vs :
  queue_ok σ this q l → linked q → holds q l (v :: vs) →
  pop_value this σ = Ret v (mkMemory (<[this := popped q]> (objects σ)) (blocks σ)).
Proof.
  intros Hok Hlk Hh.
  assert (Hlt : 0 < size_ q) by (destruct Hh as [Hlen _]; simpl in Hlen; lia).
  destruct (pop_holds _ _ _ _ (ok_ring _ _ _ _ Hok) Hlk Hh) as (Hv & _ & _).
  unfold pop_value, bind. rewrite (pop_returns _ _ _ _ Hok Hlt).
  unfold deref; simpl. apply (array_read_eq _ _ _ l); simpl; try done.
  - apply Hok.
  - apply (ok_ring _ _ _ _ Hok).
Qed.

Lemma pop_n_ok this vs : ∀ σ q l rest,
  queue_ok σ this q l → linked q → holds q l (vs ++ rest) →
  ∃ σ' q',
    pop_n this (length vs) σ = Ret vs σ' ∧ queue_ok σ' this q' l ∧ linked q' ∧
    holds q' l rest ∧ capacity_ q' = capacity_ q.
Proof.
  induction vs as [|v vs IH]; intros σ q l rest Hok Hlk Hh; simpl in *.
  - by exists σ, q.
  - assert (Hlt : 0 < size_ q) by (destruct Hh as [Hlen _]; simpl in Hlen; lia).
    destruct (pop_holds _ _ _ _ (ok_ring _ _ _ _ Hok) Hlk Hh) as (_ & Hh' & Hlk').
    pose proof (pop_keeps_ok this _ _ _ Hok Hlt) as Hok'.
    destruct (IH _ _ _ _ Hok' Hlk' Hh') as (σ' & q' & Hrun & Hok'' & Hlk'' & Hh'' & Hc).
    exists σ', q'. unfold bind. rewrite (pop_value_ok _ _ _ _ _ _ Hok Hlk Hh), Hrun.
    by split_and!.
Qed.

(** ** Construction *)

Lemma map_const_seq (d : T) (n : nat) : ∀ s, map (λ _, d) (seq s n) = replicate n d.
Proof. induction n as [|n IH]; intros s; cbn; [done|]. by rewrite IH. Qed.

(** On a request that is representable and is supplied with [T_default] in
    every element, the two renderings of [new T[n]] and of the constructor
    coincide. *)
Lemma new_array_answered_default sizeof_T n σ :
  n * sizeof_T ≤ SIZE_MAX →
  new_array_answered sizeof_T (Supplied (λ _, T_default)) n σ = new_array T_default n σ.
Proof.
  intros Hn. unfold new_array_answered, new_array.
  destruct (Z.ltb_spec SIZE_MAX (n * sizeof_T)) as [?|_]; [lia|].
  by rewrite map_const_seq.
Qed.

Lemma construct_alloc_default sizeof_T this c σ :
  c * sizeof_T ≤ SIZE_MAX →
  construct_alloc sizeof_T (Supplied (λ _, T_default)) this c σ =
    construct T_default this c σ.
Proof.
  intros Hc. unfold construct_alloc, construct, bind.
  destruct (c =? 0); [done|]. by rewrite new_array_answered_default.
Qed.

(** C8, as amended.  Constructing with capacity 0 throws the
    invalid-capacity error before anything is requested from the free
    store.  Constructing with a capacity from 1 up to [SIZE_MAX] returns,
    with [size()] 0 and [capacity()] the requested capacity, when the byte
    count of the array is representable and the free store supplies the
    block, whatever the block initially holds; when the byte count is not
    representable or the free store refuses, the constructor throws the
    allocation failure.  Whenever it throws, memory is as it was and no
    queue exists at [this] that was not there before. *)
Theorem construct_zero_or_allocated sizeof_T (answer : new_result) this c σ :
  1 ≤ c ≤ SIZE_MAX →
  construct_alloc sizeof_T answer this 0 σ = Throw InvalidCapacity σ ∧
  (c * sizeof_T ≤ SIZE_MAX → ∀ content, answer = Supplied content →
   ∃ σ', construct_alloc sizeof_T answer this c σ = Ret tt σ' ∧
         size this σ' = Ret 0 σ' ∧ capacity this σ' = Ret c σ') ∧
  (SIZE_MAX < c * sizeof_T ∨ answer = Refused →
   construct_alloc sizeof_T answer this c σ = Throw bad_alloc σ).
Proof.
  intros Hc. split_and!; [done|..]; unfold construct_alloc, new_array_answered, bind;
    (destruct (Z.eqb_spec c 0) as [?|_]; [lia|]).
  - intros Hfit content ->.
    destruct (Z.ltb_spec SIZE_MAX (c * sizeof_T)) as [?|_]; [lia|].
    eexists. split; [reflexivity|].
    unfold size, capacity, bind, load, store, ret. cbn [objects blocks].
    by rewrite lookup_insert_eq.
  - intros [Hbig| ->].
    + by destruct (Z.ltb_spec SIZE_MAX (c * sizeof_T)) as [_|?]; [|lia].
    + by destruct (SIZE_MAX <? c * sizeof_T).
Qed.

(** A queue built on a supplied block is well formed and empty whatever
    the block initially holds, so everything below that is proved of
    well-formed queues holds of it. *)
Lemma construct_alloc_ok sizeof_T content this c σ :
  1 ≤ c ≤ SIZE_MAX → c * sizeof_T ≤ SIZE_MAX →
  ∃ σ' q l,
    construct_alloc sizeof_T (Supplied content) this c σ = Ret tt σ' ∧
    queue_ok σ' this q l ∧ linked q ∧ holds q l [] ∧
    capacity_ q = c ∧ size_ q = 0.
Proof.
  intros Hc Hfit. unfold construct_alloc, new_array_answered, bind, store.
  destruct (Z.eqb_spec c 0) as [?|_]; [lia|].
  destruct (Z.ltb_spec SIZE_MAX (c * sizeof_T)) as [?|_]; [lia|].
  rewrite size_t_wrap_id by (unfold is_size_t; lia). cbv zeta.
  eexists _, (mkQueue false _ c 0 0 (c - 1)), (map content (seq 0 (Z.to_nat c))).
  split; [reflexivity|]. split; [split|].
  - cbn. by rewrite lookup_insert_eq.
  - done.
  - cbn. by rewrite lookup_insert_eq.
  - cbn. rewrite length_map, length_seq. lia.
  - cbn. lia.
  - unfold ring_inv; cbn. lia.
  - split_and!; try done.
    unfold linked; cbn. rewrite Z.mod_small; lia.
Qed.

(** ** The circular increment *)

(** C5.  On every index the queue's invariant allows, [0 <= index <
    capacity] with [capacity] a [size_t], the helper returns
    [(index + 1) mod capacity], and the helper with the comparison against
    [SIZE_MAX] removed returns the same. *)
Theorem safe_increment_is_modulo capacity index :
  0 ≤ index < capacity → capacity ≤ SIZE_MAX →
  safe_increment capacity index = Some (spec_circular_advance capacity index) ∧
  safe_increment capacity index = increment_without_sentinel capacity index.
Proof.
  intros Hi Hc. rewrite safe_increment_in_range by done. split; [done|].
  unfold increment_without_sentinel.
  destruct (Z.eqb_spec capacity 0) as [?|_]; [lia|].
  rewrite size_t_wrap_id; [done | unfold is_size_t; lia].
Qed.

(** Outside that range the comparison is not idle: at [SIZE_MAX] the helper
    yields [1 mod capacity] where the plain wrapped sum yields 0. *)
Remark safe_increment_at_SIZE_MAX :
  safe_increment 5 SIZE_MAX = Some 1 ∧
  increment_without_sentinel 5 SIZE_MAX = Some 0.
Proof. split; reflexivity. Qed.

(** ** push *)

(** C3.  On a well-formed queue, either overload of [push] throws exactly
    when [size_ = capacity_]; what it throws is the full-queue error and
    memory is as before the call.  When [size_ < capacity_] it returns with
    [back] advanced to [(back + 1) mod capacity_], the value written to that
    slot of the array, [size_] one larger, and nothing else changed. *)
Theorem push_full_or_store this v σ q l :
  queue_ok σ this q l →
  (∀ e σ', push this v σ = Throw e σ' ↔ size_ q = capacity_ q ∧ e = Full ∧ σ' = σ) ∧
  (size_ q < capacity_ q →
   push this v σ =
     Ret tt (mkMemory
               (<[this := mkQueue false (items q) (capacity_ q) (size_ q + 1) (front q)
                            ((back q + 1) mod capacity_ q)]> (objects σ))
               (<[items q := <[Z.to_nat ((back q + 1) mod capacity_ q) := v]> l]>
                  (blocks σ)))) ∧
  push_move this v σ = push this v σ.
Proof.
  intros Hok. split_and!; [|by apply push_stores|done].
  intros e σ'. pose proof (ok_ring _ _ _ _ Hok) as (_ & _ & Hs).
  destruct (decide (size_ q = capacity_ q)) as [Heq|Hne].
  - rewrite (push_full_throws _ _ _ _ _ Hok Heq). split.
    + by intros [= <- <-].
    + by intros (_ & -> & ->).
  - rewrite (push_stores _ _ _ _ _ Hok) by lia. split; [done|]. by intros [? _].
Qed.

(** ** pop *)

(** C10.  A [pop] on a well-formed queue with [size_ > 0] returns the
    reference [items[front]]; afterwards the object differs from before only
    in [front], now [(front + 1) mod capacity_], and [size_], now one less;
    no array block changed, and the returned reference still reads the value
    the slot held before the call.  The push that follows finds room and
    writes slot [(back + 1) mod capacity_]: the reference reads the pushed
    value if that is the slot popped from, and the popped value otherwise. *)
Theorem pop_frame this σ q l :
  queue_ok σ this q l → 0 < size_ q →
  ∃ σ' v,
    pop this σ = Ret (items q, front q) σ' ∧
    objects σ' =
      <[this := mkQueue (mutex q) (items q) (capacity_ q) (size_ q - 1)
                  ((front q + 1) mod capacity_ q) (back q)]> (objects σ) ∧
    blocks σ' = blocks σ ∧
    l !! Z.to_nat (front q) = Some v ∧
    deref (items q, front q) σ' = Ret v σ' ∧
    ∀ w, ∃ σ'',
      push this w σ' = Ret tt σ'' ∧
      deref (items q, front q) σ'' =
        Ret (if decide ((back q + 1) mod capacity_ q = front q) then w else v) σ''.
Proof.
  intros Hok Hlt.
  pose proof (ok_ring _ _ _ _ Hok) as (Hf & Hb & Hs).
  pose proof (ok_length _ _ _ _ Hok) as Hl.
  destruct (lookup_lt_is_Some_2 l (Z.to_nat (front q))) as [v Hv]; [lia|].
  pose proof (pop_keeps_ok _ _ _ _ Hok Hlt) as Hok'.
  assert (Hroom : size_ (popped q) < capacity_ (popped q)) by (cbn; lia).
  eexists _, v. split; [by apply (pop_returns _ _ _ l)|].
  cbn [objects blocks]. split_and!; try done.
  - by rewrite (ok_mutex _ _ _ _ Hok).
  - unfold deref. apply (array_read_eq _ _ _ l); cbn; try done; [apply Hok | lia].
  - intros w. eexists. split; [apply (push_stores _ _ _ _ _ Hok' Hroom)|].
    pose proof (Z.mod_pos_bound (back q + 1) (capacity_ q) ltac:(lia)) as Hr.
    unfold deref. cbn [fst snd popped back capacity_ items].
    eapply array_read_eq; [cbn; apply lookup_insert_eq|lia|].
    case_decide as Heq.
    + rewrite Heq. apply list_lookup_insert_eq. lia.
    + rewrite list_lookup_insert_ne; [done|]. intros Hz. apply Heq.
      apply Z2Nat.inj in Hz; lia.
Qed.

(** A pop from a full queue frees the very slot the next push writes. *)
Lemma push_after_pop_overwrites q :
  ring_inv q → linked q → size_ q = capacity_ q →
  (back (popped q) + 1) mod capacity_ (popped q) = front q.
Proof.
  intros (Hf & _ & _) Hlk Hs. cbn [popped back capacity_].
  rewrite linked_back_succ by (done || lia). unfold slot.
  rewrite Hs. replace (front q + capacity_ q) with (front q + 1 * capacity_ q) by lia.
  rewrite Z_mod_plus_full. apply Z.mod_small. lia.
Qed.

(** ** FIFO order and the capacity boundary *)

(** C1.  In a queue just constructed with capacity [c], pushing the [k <= c]
    values [vs] one after the other succeeds every time, and [k] pops then
    hand out exactly [vs], in the order pushed. *)
Theorem fifo_order this c (vs : list T) σ :
  1 ≤ c ≤ SIZE_MAX → Z.of_nat (length vs) ≤ c →
  ∃ σ', (construct T_default this c ;;; push_all this vs ;;;
         pop_n this (length vs)) σ = Ret vs σ'.
Proof.
  intros Hc Hk.
  destruct (construct_ok this c σ Hc) as (σ1 & q1 & l1 & Hrun1 & Hok1 & Hlk1 & Hh1 & Hcap & Hsz).
  destruct (push_all_ok this vs _ _ _ _ Hok1 Hlk1 Hh1) as (σ2 & q2 & l2 & Hrun2 & Hok2 & Hlk2 & Hh2 & _).
  { lia. }
  simpl in Hh2. rewrite <- (app_nil_r vs) in Hh2.
  destruct (pop_n_ok this vs _ _ _ _ Hok2 Hlk2 Hh2) as (σ3 & q3 & Hrun3 & _).
  exists σ3. unfold bind. by rewrite Hrun1, Hrun2.
Qed.

(** C7.  After a queue is constructed with capacity [c] and [c] pushes have
    succeeded, [full()] returns true and a further push throws the
    full-queue error; a pop then succeeds, after it one push succeeds, and
    the push after that throws the full-queue error again. *)
Theorem capacity_boundary this c (vs : list T) v1 v2 v3 σ :
  1 ≤ c ≤ SIZE_MAX → Z.of_nat (length vs) = c →
  ∃ σ1 r σ2 σ3,
    (construct T_default this c ;;; push_all this vs) σ = Ret tt σ1 ∧
    full this σ1 = Ret true σ1 ∧
    push this v1 σ1 = Throw Full σ1 ∧
    pop this σ1 = Ret r σ2 ∧
    push this v2 σ2 = Ret tt σ3 ∧
    push this v3 σ3 = Throw Full σ3.
Proof.
  intros Hc Hk.
  destruct (construct_ok this c σ Hc) as (σ0 & q0 & l0 & Hrun0 & Hok0 & Hlk0 & Hh0 & Hcap & Hsz).
  destruct (push_all_ok this vs _ _ _ _ Hok0 Hlk0 Hh0) as (σ1 & q1 & l1 & Hrun1 & Hok1 & _ & _ & Hcap1 & Hsz1).
  { lia. }
  assert (Hfull : size_ q1 = capacity_ q1) by lia.
  assert (Hpos : 0 < size_ q1) by lia.
  pose proof (pop_keeps_ok this _ _ _ Hok1 Hpos) as Hok2.
  assert (Hroom : size_ (popped q1) < capacity_ (popped q1)) by (simpl; lia).
  pose proof (push_keeps_ok this v2 _ _ _ Hok2 Hroom) as Hok3.
  eexists σ1, _, _, _. split_and!.
  - unfold bind. by rewrite Hrun0.
  - rewrite (full_eq _ _ _ (ok_object _ _ _ _ Hok1) (ok_mutex _ _ _ _ Hok1)).
    by rewrite (proj2 (Z.eqb_eq _ _) Hfull).
  - apply (push_full_throws _ _ _ _ _ Hok1 Hfull).
  - apply (pop_returns _ _ _ _ Hok1 Hpos).
  - apply (push_stores _ _ _ _ _ Hok2 Hroom).
  - apply (push_full_throws _ _ _ _ _ Hok3). simpl. lia.
Qed.

(** ** The index and count ranges are invariant *)

Lemma ring_inv_set_mutex b q : ring_inv q → ring_inv (set_mutex b q).
Proof. done. Qed.

Lemma ring_inv_adopt b p q : ring_inv q → ring_inv (adopt b p q).
Proof. done. Qed.

Lemma state_inv_insert σ this q (blks : gmap positive (list T)) :
  state_inv σ → ring_inv q →
  state_inv (mkMemory (<[this := q]> (objects σ)) blks).
Proof.
  intros Hinv Hq a q'. cbn. rewrite lookup_insert.
  case_decide; [by intros [= <-] | apply Hinv].
Qed.

Lemma state_inv_blocks σ (blks : gmap positive (list T)) :
  state_inv σ → state_inv (mkMemory (objects σ) blks).
Proof. intros Hinv a q'. apply Hinv. Qed.

Lemma it_ret {A} (a : A) (Q : A → Prop) : Q a → inv_triple (ret a) Q.
Proof. by intros HQ σ Hinv. Qed.

Lemma it_throw {A} e (Q : A → Prop) : inv_triple (throw e) Q.
Proof. by intros σ Hinv. Qed.

Lemma it_undefined {A} (Q : A → Prop) : inv_triple undefined Q.
Proof. by intros σ Hinv. Qed.

Lemma it_bind {A B} (m : M (T := T) A) (k : A → M (T := T) B) (Q : A → Prop) (R : B → Prop) :
  inv_triple m Q → (∀ a, Q a → inv_triple (k a) R) → inv_triple (bind m k) R.
Proof.
  intros Hm Hk σ Hinv. unfold bind. specialize (Hm σ Hinv).
  destruct (m σ) as [a σ'| |]; [|done..].
  destruct Hm as [Hinv' Ha]. by apply Hk.
Qed.

Lemma it_weaken {A} (m : M (T := T) A) (Q R : A → Prop) :
  inv_triple m Q → (∀ a, Q a → R a) → inv_triple m R.
Proof.
  intros Hm HQR σ Hinv. specialize (Hm σ Hinv).
  destruct (m σ); [|done..]. destruct Hm. auto.
Qed.

Lemma it_load this : inv_triple (load this) ring_inv.
Proof.
  intros σ Hinv. unfold load.
  destruct (objects σ !! this) as [q|] eqn:Hq; [|done]. split; [done|]. by eapply Hinv.
Qed.

Lemma it_store this q : ring_inv q → inv_triple (store this q) (λ _, True).
Proof. intros Hq σ Hinv. unfold store. split; [|done]. by apply state_inv_insert. Qed.

Lemma it_modify this f :
  (∀ q, ring_inv q → ring_inv (f q)) → inv_triple (modify this f) (λ _, True).
Proof.
  intros Hf. unfold modify. eapply it_bind; [apply it_load|].
  intros q Hq. apply it_store. auto.
Qed.

Lemma it_new_array n : inv_triple (new_array T_default n) (λ _, True).
Proof. intros σ Hinv. unfold new_array. split; [|done]. by apply state_inv_blocks. Qed.

Lemma it_delete_array p : inv_triple (delete_array p) (λ _, True).
Proof.
  intros σ Hinv. unfold delete_array.
  destruct (blocks σ !! p); [|done]. split; [|done]. by apply state_inv_blocks.
Qed.

Lemma it_array_read p i : inv_triple (array_read p i) (λ _, True).
Proof.
  intros σ Hinv. unfold array_read.
  destruct (blocks σ !! p) as [l|]; [|done].
  destruct ((0 <=? i) && (i <? Z.of_nat (length l))); [|done].
  by destruct (l !! Z.to_nat i).
Qed.

Lemma it_array_write p i v : inv_triple (array_write p i v) (λ _, True).
Proof.
  intros σ Hinv. unfold array_write.
  destruct (blocks σ !! p) as [l|]; [|done].
  destruct ((0 <=? i) && (i <? Z.of_nat (length l))); [|done].
  split; [|done]. by apply state_inv_blocks.
Qed.

Lemma it_lock_guard {A} this (body : M (T := T) A) (Q : A → Prop) :
  inv_triple body Q → inv_triple (lock_guard this body) Q.
Proof.
  intros Hbody σ Hinv. unfold lock_guard.
  destruct (objects σ !! this) as [q|] eqn:Hq; [|done].
  destruct (mutex q); [done|].
  assert (Hlocked : state_inv (mkMemory (<[this := set_mutex true q]> (objects σ)) (blocks σ))).
  { apply state_inv_insert; [done|]. apply ring_inv_set_mutex. by eapply Hinv. }
  specialize (Hbody _ Hlocked).
  destruct (body _) as [a σ'|e σ'|]; [| |done].
  - destruct Hbody as [Hinv' Ha].
    apply (it_bind (unlock this) (λ _, ret a) (λ _, True)); [| |done].
    + apply it_modify, ring_inv_set_mutex.
    + intros _ _. by apply it_ret.
  - apply (it_bind (unlock this) (λ _, throw e) (λ _, True)); [| |done].
    + apply it_modify, ring_inv_set_mutex.
    + intros _ _. apply it_throw.
Qed.

Lemma it_copy_items this queue n : ∀ i,
  inv_triple (copy_items this queue i n) (λ _, True).
Proof.
  induction n as [|n IH]; intros i; simpl; [by apply it_ret|].
  eapply it_bind; [apply it_load|]. intros src _.
  eapply it_bind; [apply it_load|]. intros dst _.
  eapply it_bind; [apply it_array_read|]. intros v _.
  eapply it_bind; [apply it_array_write|]. intros _ _. apply IH.
Qed.

Lemma it_construct this c : 0 ≤ c → inv_triple (construct T_default this c) (λ _, True).
Proof.
  intros Hc. unfold construct.
  destruct (Z.eqb_spec c 0) as [?|Hne]; [apply it_throw|].
  eapply it_bind; [apply it_new_array|]. intros p _. apply it_store.
  pose proof (Z.mod_pos_bound (c - 1) (SIZE_MAX + 1) ltac:(done)) as Hw.
  pose proof (Z.mod_le (c - 1) (SIZE_MAX + 1) ltac:(lia) ltac:(done)) as Hle.
  unfold ring_inv, size_t_wrap; cbn. lia.
Qed.

Lemma it_copy_construct this queue :
  inv_triple (copy_construct T_default this queue) (λ _, True).
Proof.
  apply it_lock_guard.
  eapply it_bind; [apply it_load|]. intros src Hsrc.
  eapply it_bind; [apply it_new_array|]. intros p _.
  eapply it_bind; [by apply it_store, ring_inv_adopt|]. intros _ _.
  apply it_copy_items.
Qed.

Lemma it_move_construct this queue :
  inv_triple (move_construct T_default this queue) (λ _, True).
Proof.
  apply it_lock_guard.
  eapply it_bind; [apply it_load|]. intros src Hsrc.
  eapply it_bind; [apply it_new_array|]. intros p _.
  eapply it_bind; [by apply it_store, ring_inv_adopt|]. intros _ _.
  eapply it_bind; [apply it_copy_items|]. intros _ _.
  eapply it_bind; [apply it_load|]. intros src' _. apply it_delete_array.
Qed.

Lemma it_copy_assign this queue :
  inv_triple (copy_assign T_default this queue) (λ _, True).
Proof.
  do 2 apply it_lock_guard. case_decide; [by apply it_ret|].
  eapply it_bind; [apply it_load|]. intros dst _.
  eapply it_bind; [apply it_delete_array|]. intros _ _.
  eapply it_bind; [apply it_load|]. intros src Hsrc.
  eapply it_bind; [apply it_new_array|]. intros p _.
  eapply it_bind; [apply it_modify; intros d _; by apply ring_inv_adopt|]. intros _ _.
  eapply it_bind; [apply it_copy_items|]. intros _ _. by apply it_ret.
Qed.

Lemma it_move_assign this queue :
  inv_triple (move_assign this queue) (λ _ : positive, True).
Proof.
  do 2 apply it_lock_guard. case_decide; [by apply it_ret|].
  eapply it_bind; [apply it_load|]. intros dst _.
  eapply it_bind; [apply it_delete_array|]. intros _ _.
  eapply it_bind; [apply it_load|]. intros src Hsrc.
  eapply it_bind; [apply it_modify; intros d _; by apply ring_inv_adopt|]. intros _ _.
  by apply it_ret.
Qed.

Lemma it_peek_front this : inv_triple (peek_front this) (λ _, True).
Proof.
  apply it_lock_guard. eapply it_bind; [apply it_load|]. intros q _. by apply it_ret.
Qed.

Lemma it_peek_back this : inv_triple (peek_back this) (λ _, True).
Proof.
  apply it_lock_guard. eapply it_bind; [apply it_load|]. intros q _. by apply it_ret.
Qed.

Lemma size_t_wrap_bounds x : 0 ≤ x → 0 ≤ size_t_wrap x ≤ x.
Proof.
  intros Hx. unfold size_t_wrap. split.
  - by apply Z.mod_pos_bound.
  - by apply Z.mod_le.
Qed.

(** After the test against [capacity_] the members [push] changes stay
    in range; likewise for [pop] after the test against 0. *)
Lemma it_push this v : inv_triple (push this v) (λ _, True).
Proof.
  apply it_lock_guard. intros σ Hinv. unfold bind at 1, load.
  destruct (objects σ !! this) as [q|] eqn:Hq; [|done].
  pose proof (Hinv _ _ Hq) as (Hf & Hb & Hs).
  destruct (Z.eqb_spec (size_ q) (capacity_ q)) as [?|Hne]; [done|].
  unfold bind at 1. destruct (safe_increment _ _) as [b|] eqn:Hb'; [|done]. cbn.
  apply safe_increment_bounds in Hb'; [|lia].
  unfold modify, bind, load, store, array_write. cbn. rewrite Hq. cbn.
  rewrite lookup_insert_eq. cbn.
  destruct (blocks σ !! items q) as [l|]; [|done].
  destruct ((0 <=? b) && (b <? Z.of_nat (length l))); [|done]. cbn.
  rewrite lookup_insert_eq. split; [|done].
  cbn [objects blocks]. rewrite insert_insert_eq. apply state_inv_insert; [done|].
  pose proof (size_t_wrap_bounds (size_ q + 1) ltac:(lia)).
  unfold ring_inv; cbn. lia.
Qed.

Lemma it_pop this : inv_triple (pop this) (λ _, True).
Proof.
  apply it_lock_guard. intros σ Hinv. unfold bind at 1, load.
  destruct (objects σ !! this) as [q|] eqn:Hq; [|done].
  pose proof (Hinv _ _ Hq) as (Hf & Hb & Hs).
  destruct (Z.eqb_spec (size_ q) 0) as [?|Hne]; [done|].
  unfold bind at 1. destruct (safe_increment _ _) as [f|] eqn:Hf'; [|done]. cbn.
  apply safe_increment_bounds in Hf'; [|lia].
  unfold modify, bind, load, store, ret. cbn. rewrite Hq. cbn.
  rewrite lookup_insert_eq. split; [|done].
  cbn [objects blocks]. rewrite insert_insert_eq. apply state_inv_insert; [done|].
  pose proof (size_t_wrap_bounds (size_ q - 1) ltac:(lia)).
  unfold ring_inv; cbn. lia.
Qed.

Lemma inv_triple_post {A} (m : M (T := T) A) (Q : A → Prop) σ :
  inv_triple m Q → state_inv σ → post state_inv (m σ).
Proof.
  intros Hm Hinv. specialize (Hm σ Hinv). unfold post.
  destruct (m σ); [by destruct Hm|done..].
Qed.

(** C6.  From a memory in which every queue object has [front] and [back]
    in [[0, capacity_)] and [0 <= size_ <= capacity_], construction, either
    push, pop, both peeks, both copies and both moves leave a memory with
    the same property, whether they return or throw. *)
Theorem invariant_preserved σ :
  state_inv σ →
  (∀ this c, is_size_t c → post state_inv (construct T_default this c σ)) ∧
  (∀ this v, post state_inv (push this v σ)) ∧
  (∀ this v, post state_inv (push_move this v σ)) ∧
  (∀ this, post state_inv (pop this σ)) ∧
  (∀ this, post state_inv (peek_front this σ)) ∧
  (∀ this, post state_inv (peek_back this σ)) ∧
  (∀ this queue, post state_inv (copy_construct T_default this queue σ)) ∧
  (∀ this queue, post state_inv (copy_assign T_default this queue σ)) ∧
  (∀ this queue, post state_inv (move_construct T_default this queue σ)) ∧
  (∀ this queue, post state_inv (move_assign this queue σ)).
Proof.
  intros Hinv. split_and!; intros.
  - eapply inv_triple_post; [apply it_construct|done]. by destruct H.
  - eapply inv_triple_post; [apply it_push|done].
  - eapply inv_triple_post; [apply it_push|done].
  - eapply inv_triple_post; [apply it_pop|done].
  - eapply inv_triple_post; [apply it_peek_front|done].
  - eapply inv_triple_post; [apply it_peek_back|done].
  - eapply inv_triple_post; [apply it_copy_construct|done].
  - eapply inv_triple_post; [apply it_copy_assign|done].
  - eapply inv_triple_post; [apply it_move_construct|done].
  - eapply inv_triple_post; [apply it_move_assign|done].
Qed.

(** ** Copying *)

Lemma in_bounds (i : nat) l :
  (i < length l)%nat → (0 <=? Z.of_nat i) && (Z.of_nat i <? Z.of_nat (length l)) = true.
Proof.
  intros Hi. apply andb_true_iff. split; [apply Z.leb_le | apply Z.ltb_lt]; lia.
Qed.

(** The copy loop, entered at counter [i] with the destination block
    holding [ld], leaves the first [i] elements of [ld] followed by the
    source's elements from [i] on. *)
Lemma copy_items_eq this queue src dst ls (blks : gmap positive (list T)) objs n :
  objs !! queue = Some src → objs !! this = Some dst → items src ≠ items dst →
  blks !! items src = Some ls → Z.of_nat (length ls) ≤ SIZE_MAX →
  ∀ (i : nat) ld,
    (i + n = length ls)%nat → length ld = length ls →
    copy_items this queue (Z.of_nat i) n (mkMemory objs (<[items dst := ld]> blks)) =
      Ret tt (mkMemory objs (<[items dst := take i ld ++ drop i ls]> blks)).
Proof.
  intros Hsrc Hdst Hne Hls Hmax. induction n as [|n IH]; intros i ld Hi Hld.
  - cbn. rewrite Nat.add_0_r in Hi. subst i.
    by rewrite <- Hld, firstn_all, Hld, drop_all, app_nil_r.
  - destruct (lookup_lt_is_Some_2 ls i) as [v Hv]; [lia|].
    cbn [copy_items]. unfold bind, load, array_read, array_write.
    cbn [objects blocks]. rewrite Hsrc. cbn [objects blocks]. rewrite Hdst.
    cbn [objects blocks]. rewrite lookup_insert_ne, Hls by done.
    rewrite in_bounds, Nat2Z.id, Hv by lia.
    cbn [objects blocks]. rewrite lookup_insert_eq.
    rewrite in_bounds by lia. cbn [objects blocks].
    rewrite insert_insert_eq.
    rewrite size_t_wrap_id by (unfold is_size_t; lia).
    replace (Z.of_nat i + 1) with (Z.of_nat (S i)) by lia.
    rewrite IH by (rewrite ?length_insert; lia).
    do 2 f_equal. f_equal.
    rewrite (take_S_r _ _ v) by (apply list_lookup_insert_eq; lia).
    rewrite take_insert_ge by lia.
    by rewrite <- app_assoc, (drop_S ls v i Hv).
Qed.

Lemma copy_items_all this queue src dst ls ld (blks : gmap positive (list T)) objs n p :
  objs !! queue = Some src → objs !! this = Some dst →
  p = items dst → items src ≠ p →
  blks !! items src = Some ls → Z.of_nat (length ls) ≤ SIZE_MAX →
  n = length ls → length ld = length ls →
  copy_items this queue 0 n (mkMemory objs (<[p := ld]> blks)) =
    Ret tt (mkMemory objs (<[p := ls]> blks)).
Proof.
  intros Hsrc Hdst -> Hne Hls Hmax Hn Hld.
  apply (copy_items_eq this queue src dst ls blks objs n Hsrc Hdst Hne Hls Hmax
           0%nat ld Hn Hld).
Qed.

Lemma fresh_block σ p l : blocks σ !! p = Some l → p ≠ fresh (dom (blocks σ)).
Proof.
  intros Hp Heq. pose proof (is_fresh (dom (blocks σ))) as Hfresh.
  rewrite <- Heq in Hfresh. apply Hfresh, elem_of_dom. by eexists.
Qed.

(** The copy constructor on a well-formed source: the new object takes the
    source's members and a new block with the source's elements. *)
Lemma copy_construct_eq this queue σ q l :
  queue_ok σ queue q l → this ≠ queue →
  copy_construct T_default this queue σ =
    let p := fresh (dom (blocks σ)) in
    Ret tt (mkMemory (<[this := adopt false p q]> (objects σ))
              (<[p := l]> (blocks σ))).
Proof.
  intros [Hq Hm Hb Hl Hc (Hf & Hbk & Hs)] Hne. cbv zeta.
  pose proof (fresh_block _ _ _ Hb) as Hp.
  destruct σ as [objs blks]; cbn [objects blocks] in *.
  unfold copy_construct, lock_guard. cbn [objects blocks]. rewrite Hq, Hm.
  unfold bind at 1 2 3, load, new_array, store. mred.
  set (p := fresh (dom blks)) in *.
  rewrite (copy_items_all this queue (set_mutex true q)
             (adopt false p (set_mutex true q)) l);
    [|by rewrite lookup_insert_ne, lookup_insert_eq by done|by rewrite lookup_insert_eq
     |done|done|done|lia|lia|rewrite length_replicate; lia].
  unfold unlock, modify, bind, load, store, ret. mred.
  rewrite lookup_insert_ne, lookup_insert_eq by done. mred.
  rewrite unlock_lock by done.
  do 2 f_equal. apply map_eq. intros a.
  rewrite !lookup_insert. repeat case_decide; simplify_eq; done.
Qed.

(** Copy assignment onto a well-formed destination that owns a different
    block: the old block is released, the rest is as for the constructor. *)
Lemma copy_assign_eq this queue σ q l qd ld :
  queue_ok σ queue q l → queue_ok σ this qd ld →
  this ≠ queue → items qd ≠ items q →
  copy_assign T_default this queue σ =
    let p := fresh (dom (delete (items qd) (blocks σ))) in
    Ret this (mkMemory (<[this := adopt false p q]> (objects σ))
                (<[p := l]> (delete (items qd) (blocks σ)))).
Proof.
  intros [Hq Hm Hb Hl Hc (Hf & Hbk & Hs)] [Hqd Hmd Hbd _ _ _] Hne Hitems. cbv zeta.
  destruct σ as [objs blks]; cbn [objects blocks] in *.
  assert (Hb' : delete (items qd) blks !! items q = Some l)
    by by rewrite lookup_delete_ne.
  pose proof (fresh_block (mkMemory objs (delete (items qd) blks)) _ _ Hb') as Hp.
  cbn [blocks] in Hp.
  set (p := fresh (dom (delete (items qd) blks))) in *.
  unfold copy_assign, lock_guard. cbn [objects blocks]. rewrite Hqd, Hmd.
  cbn [objects blocks]. rewrite lookup_insert_ne, Hq, Hm by done.
  case_decide; [done|].
  unfold bind at 1 2 3 4 5, load, delete_array, new_array, modify, store.
  unfold bind at 1 2, load, store.
  mred. rewrite lookup_insert_ne by done. mred. rewrite Hbd. mred.
  rewrite lookup_insert_ne by done. mred. fold p.
  rewrite (copy_items_all this queue (set_mutex true q)
             (adopt true p (set_mutex true q)) l);
    [|by rewrite lookup_insert_ne, lookup_insert_eq by done|by rewrite lookup_insert_eq
     |done|done|done|lia|lia|rewrite length_replicate; lia].
  unfold unlock, modify, bind, load, store, ret. mred.
  rewrite lookup_insert_ne, lookup_insert_eq by done. mred.
  rewrite lookup_insert_ne, lookup_insert_eq by done. mred.
  rewrite unlock_lock by done.
  do 2 f_equal. apply map_eq. intros a.
  rewrite !lookup_insert. repeat case_decide; simplify_eq; done.
Qed.

(** ** What a caller observes depends on the queue's own members and block *)

Lemma pop_value_returns this σ q l :
  queue_ok σ this q l → 0 < size_ q →
  ∃ v, l !! Z.to_nat (front q) = Some v ∧
       pop_value this σ =
         Ret v (mkMemory (<[this := popped q]> (objects σ)) (blocks σ)).
Proof.
  intros Hok Hlt. pose proof (ok_ring _ _ _ _ Hok) as (Hf & _ & _).
  destruct (lookup_lt_is_Some_2 l (Z.to_nat (front q))) as [v Hv].
  { pose proof (ok_length _ _ _ _ Hok). lia. }
  exists v. split; [done|].
  unfold pop_value, bind. rewrite (pop_returns _ _ _ _ Hok Hlt).
  unfold deref. apply (array_read_eq _ _ _ l); cbn; try done; [apply Hok | lia].
Qed.

Lemma pop_value_empty this σ q l :
  queue_ok σ this q l → size_ q = 0 → pop_value this σ = Throw Empty σ.
Proof.
  intros Hok Hs. unfold pop_value, bind. by rewrite (pop_empty_throws _ _ _ _ Hok Hs).
Qed.

Lemma peek_front_value_eq this σ q l :
  queue_ok σ this q l →
  ∃ v, l !! Z.to_nat (front q) = Some v ∧ peek_front_value this σ = Ret v σ.
Proof.
  intros Hok. pose proof (ok_ring _ _ _ _ Hok) as (Hf & _ & _).
  destruct (lookup_lt_is_Some_2 l (Z.to_nat (front q))) as [v Hv].
  { pose proof (ok_length _ _ _ _ Hok). lia. }
  exists v. split; [done|]. unfold peek_front_value, bind.
  rewrite (peek_front_eq _ _ _ (ok_object _ _ _ _ Hok) (ok_mutex _ _ _ _ Hok)).
  unfold deref. apply (array_read_eq _ _ _ l); cbn; try done; [apply Hok | lia].
Qed.

Lemma peek_back_value_eq this σ q l :
  queue_ok σ this q l →
  ∃ v, l !! Z.to_nat (back q) = Some v ∧ peek_back_value this σ = Ret v σ.
Proof.
  intros Hok. pose proof (ok_ring _ _ _ _ Hok) as (_ & Hb & _).
  destruct (lookup_lt_is_Some_2 l (Z.to_nat (back q))) as [v Hv].
  { pose proof (ok_length _ _ _ _ Hok). lia. }
  exists v. split; [done|]. unfold peek_back_value, bind.
  rewrite (peek_back_eq _ _ _ (ok_object _ _ _ _ Hok) (ok_mutex _ _ _ _ Hok)).
  unfold deref. apply (array_read_eq _ _ _ l); cbn; try done; [apply Hok | lia].
Qed.

Lemma pop_n_same this n : ∀ σ σ' q l,
  queue_ok σ this q l → queue_ok σ' this q l →
  result_of (pop_n this n σ) = result_of (pop_n this n σ').
Proof.
  induction n as [|n IH]; intros σ σ' q l Hok Hok'; [done|].
  cbn [pop_n]. unfold bind at 1 3.
  destruct (decide (size_ q = 0)) as [Hz|Hnz].
  - by rewrite (pop_value_empty _ _ _ _ Hok Hz), (pop_value_empty _ _ _ _ Hok' Hz).
  - assert (Hlt : 0 < size_ q) by (pose proof (ok_ring _ _ _ _ Hok) as (_ & _ & ?); lia).
    destruct (pop_value_returns _ _ _ _ Hok Hlt) as (v & Hv & ->).
    destruct (pop_value_returns _ _ _ _ Hok' Hlt) as (v' & Hv' & ->).
    assert (v' = v) as -> by congruence.
    specialize (IH _ _ _ _ (pop_keeps_ok _ _ _ _ Hok Hlt) (pop_keeps_ok _ _ _ _ Hok' Hlt)).
    unfold bind, ret.
    destruct (pop_n this n _) as [vs ?|e ?|], (pop_n this n _) as [vs' ?|e' ?|];
      cbn in *; congruence.
Qed.

Lemma observe_same this n σ σ' q l :
  queue_ok σ this q l → queue_ok σ' this q l →
  observe this n σ = observe this n σ'.
Proof.
  intros Hok Hok'. unfold observe.
  rewrite (size_eq _ _ _ (ok_object _ _ _ _ Hok)), (size_eq _ _ _ (ok_object _ _ _ _ Hok')).
  destruct (peek_front_value_eq _ _ _ _ Hok) as (v & Hv & ->).
  destruct (peek_front_value_eq _ _ _ _ Hok') as (v' & Hv' & ->).
  destruct (peek_back_value_eq _ _ _ _ Hok) as (w & Hw & ->).
  destruct (peek_back_value_eq _ _ _ _ Hok') as (w' & Hw' & ->).
  rewrite (pop_n_same this n σ σ' q l) by done.
  cbn. repeat f_equal; congruence.
Qed.

(** ** push and pop touch one object and one block *)

Lemma apply_op_frame this o σ q l :
  queue_ok σ this q l →
  ∃ σ' q' l',
    after (apply_op this o σ) = Some σ' ∧ queue_ok σ' this q' l' ∧
    items q' = items q ∧ same_elsewhere this (items q) σ σ'.
Proof.
  intros Hok. pose proof (ok_ring _ _ _ _ Hok) as (_ & _ & Hs).
  destruct o as [v|]; cbn [apply_op].
  - destruct (decide (size_ q = capacity_ q)) as [Hfull|Hroom].
    + rewrite (push_full_throws _ _ _ _ _ Hok Hfull). by exists σ, q, l.
    + assert (Hlt : size_ q < capacity_ q) by lia.
      rewrite (push_stores _ _ _ _ _ Hok Hlt).
      eexists _, _, _. split_and!; [done|by apply push_keeps_ok|done|split; intros ??; cbn].
      * by rewrite lookup_insert_ne.
      * by rewrite lookup_insert_ne.
  - unfold bind. destruct (decide (size_ q = 0)) as [Hz|Hnz].
    + rewrite (pop_empty_throws _ _ _ _ Hok Hz). by exists σ, q, l.
    + assert (Hlt : 0 < size_ q) by lia.
      rewrite (pop_returns _ _ _ _ Hok Hlt).
      eexists _, _, _. split_and!; [done|by apply pop_keeps_ok|done|split; intros ??; cbn].
      * by rewrite lookup_insert_ne.
      * done.
Qed.

Lemma run_ops_frame this os : ∀ σ q l,
  queue_ok σ this q l →
  ∃ σ' q' l',
    run_ops this os σ = Some σ' ∧ queue_ok σ' this q' l' ∧
    items q' = items q ∧ same_elsewhere this (items q) σ σ'.
Proof.
  induction os as [|o os IH]; intros σ q l Hok; cbn [run_ops].
  - by exists σ, q, l.
  - destruct (apply_op_frame this o _ _ _ Hok) as (σ1 & q1 & l1 & -> & Hok1 & Hi1 & Ho1 & Hb1).
    destruct (IH _ _ _ Hok1) as (σ2 & q2 & l2 & Hrun & Hok2 & Hi2 & Ho2 & Hb2).
    exists σ2, q2, l2. split_and!; [done..|congruence|split; intros ??].
    + rewrite Ho2, Ho1; done.
    + rewrite Hb2, Hb1; congruence.
Qed.

(** A queue that is well formed stays so, with the same members and
    elements, when only another object and another block change. *)
Lemma queue_ok_elsewhere this other p σ σ' q l :
  queue_ok σ this q l → this ≠ other → items q ≠ p →
  same_elsewhere other p σ σ' → queue_ok σ' this q l.
Proof.
  intros [Hq Hm Hb Hl Hc Hr] Hne Hp [Ho Hbk].
  split; try done.
  - by rewrite Ho.
  - by rewrite Hbk.
Qed.

(** Two well-formed queues with different blocks: whatever is pushed to or
    popped from one, the other is observed as before. *)
Lemma independent this other σ q l q' l' (os : list op) n :
  queue_ok σ this q l → queue_ok σ other q' l' →
  this ≠ other → items q ≠ items q' →
  ∃ σ', run_ops other os σ = Some σ' ∧ observe this n σ' = observe this n σ.
Proof.
  intros Hok Hok' Hne Hp.
  destruct (run_ops_frame other os _ _ _ Hok') as (σ' & q2 & l2 & Hrun & _ & _ & Hsame).
  exists σ'. split; [done|].
  apply (observe_same this n σ' σ q l); [|done].
  by apply (queue_ok_elsewhere this other (items q') σ).
Qed.

Lemma copy_construct_ok this queue σ q l :
  queue_ok σ queue q l → this ≠ queue →
  ∃ σ' p,
    copy_construct T_default this queue σ = Ret tt σ' ∧ p ≠ items q ∧
    queue_ok σ' queue q l ∧ queue_ok σ' this (adopt false p q) l.
Proof.
  intros Hok Hne. rewrite (copy_construct_eq _ _ _ _ _ Hok Hne). cbv zeta.
  pose proof (fresh_block _ _ _ (ok_block _ _ _ _ Hok)) as Hp.
  destruct Hok as [Hq Hm Hb Hl Hc Hr].
  eexists _, (fresh (dom (blocks σ))).
  split_and!; [done|done| |]; split; cbn; try done.
  all: by rewrite ?lookup_insert_eq, ?lookup_insert_ne by done.
Qed.

Lemma copy_assign_ok this queue σ q l qd ld :
  queue_ok σ queue q l → queue_ok σ this qd ld →
  this ≠ queue → items qd ≠ items q →
  ∃ σ' p,
    copy_assign T_default this queue σ = Ret this σ' ∧ p ≠ items q ∧
    queue_ok σ' queue q l ∧ queue_ok σ' this (adopt false p q) l.
Proof.
  intros Hok Hokd Hne Hitems.
  rewrite (copy_assign_eq _ _ _ _ _ _ _ Hok Hokd Hne Hitems). cbv zeta.
  destruct Hok as [Hq Hm Hb Hl Hc Hr].
  assert (Hb' : delete (items qd) (blocks σ) !! items q = Some l)
    by by rewrite lookup_delete_ne.
  pose proof (fresh_block (mkMemory (objects σ) (delete (items qd) (blocks σ))) _ _ Hb') as Hp.
  cbn [blocks] in Hp.
  eexists _, (fresh (dom (delete (items qd) (blocks σ)))).
  split_and!; [done|done| |]; split; cbn; try done.
  all: by rewrite ?lookup_insert_eq, ?lookup_insert_ne by done.
Qed.

(** C9.  After [B] is copy-constructed from a well-formed queue [A], or
    copy-assigned from it when [B] is a well-formed queue with a block of its
    own, any run of pushes and pops on [B] leaves [A]'s size and the values
    of [A]'s peeks and pops as they were, and any run on [A] leaves [B]'s. *)
Theorem copy_independence A B σ qa la (os : list op) n :
  queue_ok σ A qa la → B ≠ A →
  (∃ σ1, copy_construct T_default B A σ = Ret tt σ1 ∧
     (∃ σ2, run_ops B os σ1 = Some σ2 ∧ observe A n σ2 = observe A n σ1) ∧
     (∃ σ2, run_ops A os σ1 = Some σ2 ∧ observe B n σ2 = observe B n σ1)) ∧
  (∀ qb lb, queue_ok σ B qb lb → items qb ≠ items qa →
     ∃ σ1, copy_assign T_default B A σ = Ret B σ1 ∧
       (∃ σ2, run_ops B os σ1 = Some σ2 ∧ observe A n σ2 = observe A n σ1) ∧
       (∃ σ2, run_ops A os σ1 = Some σ2 ∧ observe B n σ2 = observe B n σ1)).
Proof.
  intros Hok Hne. split.
  - destruct (copy_construct_ok _ _ _ _ _ Hok Hne) as (σ1 & p & Hrun & Hp & HokA & HokB).
    exists σ1. split_and!; [done| |].
    + by apply (independent A B σ1 qa la (adopt false p qa) la).
    + by apply (independent B A σ1 (adopt false p qa) la qa la).
  - intros qb lb Hokb Hitems.
    destruct (copy_assign_ok _ _ _ _ _ _ _ Hok Hokb Hne Hitems)
      as (σ1 & p & Hrun & Hp & HokA & HokB).
    exists σ1. split_and!; [done| |].
    + by apply (independent A B σ1 qa la (adopt false p qa) la).
    + by apply (independent B A σ1 (adopt false p qa) la qa la).
Qed.

End Properties.

(** * Further properties of the member functions *)

Section Further.

Context {T : Type} (T_default : T).

Implicit Types (σ : memory (T := T)) (q : ConcurrentQueue) (l vs : list T).

(** ** The ring buffer against a bounded list *)

Lemma exec_op_simulates this o σ q l vs :
  queue_ok σ this q l → linked q → holds q l vs →
  ∃ σ' q' l' vs',
    queue_ok σ' this q' l' ∧ linked q' ∧ holds q' l' vs' ∧
    capacity_ q' = capacity_ q ∧
    ((∃ r, exec_op this o σ = Ret r σ' ∧
           fifo_step (capacity_ q) o vs = (inl r, vs')) ∨
     (∃ e, exec_op this o σ = Throw e σ' ∧
           fifo_step (capacity_ q) o vs = (inr e, vs'))).
Proof.
  intros Hok Hlk Hh. pose proof Hh as [Hlen _].
  pose proof (ok_ring _ _ _ _ Hok) as (_ & _ & Hs).
  destruct o as [v|]; cbn [exec_op fifo_step]; unfold bind.
  - rewrite Hlen. destruct (Z.eqb_spec (size_ q) (capacity_ q)) as [Hfull|Hroom].
    + exists σ, q, l, vs. split_and!; try done. right. exists Full.
      by rewrite (push_full_throws _ _ _ _ _ Hok Hfull).
    + assert (Hlt : size_ q < capacity_ q) by lia.
      destruct (push_holds q l vs v (ok_ring _ _ _ _ Hok) Hlk (ok_length _ _ _ _ Hok) Hlt Hh)
        as [Hh' Hlk'].
      eexists _, _, _, _. split_and!;
        [by apply (push_keeps_ok this v)|exact Hlk'|exact Hh'|done|].
      left. exists None. by rewrite (push_stores _ _ _ _ _ Hok Hlt).
  - destruct vs as [|v vs'].
    + cbn in Hlen. exists σ, q, l, []. split_and!; try done. right. exists Empty.
      by rewrite (pop_value_empty _ _ _ _ Hok) by lia.
    + assert (Hlt : 0 < size_ q) by (cbn in Hlen; lia).
      destruct (pop_holds _ _ _ _ (ok_ring _ _ _ _ Hok) Hlk Hh) as (_ & Hh' & Hlk').
      eexists _, _, _, _. split_and!;
        [by apply pop_keeps_ok|exact Hlk'|exact Hh'|done|].
      left. exists (Some v). by rewrite (pop_value_ok _ _ _ _ _ _ Hok Hlk Hh).
Qed.

Lemma trace_simulates this os : ∀ σ q l vs,
  queue_ok σ this q l → linked q → holds q l vs →
  ∃ σ' q' l',
    trace this os σ = Some ((fifo_run (capacity_ q) os vs).1, σ') ∧
    queue_ok σ' this q' l' ∧ linked q' ∧
    holds q' l' (fifo_run (capacity_ q) os vs).2 ∧
    capacity_ q' = capacity_ q.
Proof.
  induction os as [|o os IH]; intros σ q l vs Hok Hlk Hh.
  - by exists σ, q, l.
  - destruct (exec_op_simulates this o _ _ _ _ Hok Hlk Hh)
      as (σ1 & q1 & l1 & vs1 & Hok1 & Hlk1 & Hh1 & Hc1 & Hstep).
    destruct (IH _ _ _ _ Hok1 Hlk1 Hh1) as (σ2 & q2 & l2 & Htr & Hok2 & Hlk2 & Hh2 & Hc2).
    rewrite Hc1 in Htr, Hh2.
    exists σ2, q2, l2. cbn [trace fifo_run].
    destruct Hstep as [(r & -> & ->)|(e & -> & ->)]; rewrite Htr;
      destruct (fifo_run (capacity_ q) os vs1); split_and!; try done; congruence.
Qed.

(** X1.  A queue constructed with capacity [c] and then driven by any
    sequence of pushes and pops, wrap-around included, answers every call
    as a list bounded by [c] does: a push is refused exactly when the list
    is full, a pop hands out the front of the list or is refused on the
    empty list, and [size()] is the length of the list. *)
Theorem fresh_queue_is_bounded_fifo this c (os : list op) σ :
  1 ≤ c ≤ SIZE_MAX →
  ∃ σ1 σ2,
    construct T_default this c σ = Ret tt σ1 ∧
    trace this os σ1 = Some ((fifo_run c os []).1, σ2) ∧
    size this σ2 = Ret (Z.of_nat (length (fifo_run c os []).2)) σ2.
Proof.
  intros Hc.
  destruct (construct_ok T_default this c σ Hc)
    as (σ1 & q1 & l1 & Hrun & Hok1 & Hlk1 & Hh1 & Hcap & _).
  destruct (trace_simulates this os _ _ _ _ Hok1 Hlk1 Hh1)
    as (σ2 & q2 & l2 & Htr & Hok2 & _ & [Hlen _] & _).
  rewrite Hcap in Htr, Hlen.
  exists σ1, σ2. split_and!; [done..|].
  by rewrite (size_eq _ _ _ (ok_object _ _ _ _ Hok2)), Hlen.
Qed.

(** ** Peeks, [empty()] and [full()] on a queue that holds values *)

Lemma linked_back_is_last_slot q :
  0 < capacity_ q → linked q → back q = slot q (size_ q - 1).
Proof.
  unfold linked, slot. intros Hc ->.
  replace (front q + size_ q + capacity_ q - 1)
    with (front q + (size_ q - 1) + 1 * capacity_ q) by lia.
  by rewrite Z_mod_plus_full.
Qed.

(** X2.  On a queue that holds the values [vs], oldest first,
    [peek_front()] refers to the first of them and [peek_back()] to the
    last, and neither call changes memory. *)
Theorem peek_reads_oldest_and_newest this σ q l vs v w :
  queue_ok σ this q l → linked q → holds q l vs →
  head vs = Some v → last vs = Some w →
  peek_front_value this σ = Ret v σ ∧ peek_back_value this σ = Ret w σ.
Proof.
  intros Hok Hlk [Hlen Hvs] Hv Hw.
  pose proof (ok_ring _ _ _ _ Hok) as (Hf & Hb & Hs).
  rewrite head_lookup in Hv. rewrite last_lookup in Hw.
  apply lookup_lt_Some in Hv as Hpos.
  apply Hvs in Hv. apply Hvs in Hw.
  destruct (peek_front_value_eq _ _ _ _ Hok) as (v' & Hv' & ->).
  destruct (peek_back_value_eq _ _ _ _ Hok) as (w' & Hw' & ->).
  unfold slot in Hv; cbn in Hv. rewrite Z.add_0_r, Z.mod_small in Hv by done.
  rewrite (linked_back_is_last_slot q) in Hw' by (done || lia).
  replace (Z.of_nat (pred (length vs))) with (size_ q - 1) in Hw by lia.
  split; congruence.
Qed.

(** X3.  On a well-formed queue [empty()] answers true exactly when [pop()]
    is refused and [full()] answers true exactly when [push()] is refused;
    both leave memory as it was, and they never both answer true. *)
Theorem empty_full_agree_with_pop_push this v σ q l :
  queue_ok σ this q l →
  ∃ e f,
    empty this σ = Ret e σ ∧ full this σ = Ret f σ ∧
    (e = true ↔ pop this σ = Throw Empty σ) ∧
    (f = true ↔ push this v σ = Throw Full σ) ∧
    ¬ (e = true ∧ f = true).
Proof.
  intros Hok. pose proof (ok_ring _ _ _ _ Hok) as (Hf & Hb & Hs).
  exists (size_ q =? 0), (size_ q =? capacity_ q).
  rewrite (empty_eq _ _ _ (ok_object _ _ _ _ Hok) (ok_mutex _ _ _ _ Hok)).
  rewrite (full_eq _ _ _ (ok_object _ _ _ _ Hok) (ok_mutex _ _ _ _ Hok)).
  split_and!; try done.
  - rewrite Z.eqb_eq. split.
    + apply (pop_empty_throws _ _ _ _ Hok).
    + intros Hpop. destruct (decide (size_ q = 0)) as [|Hnz]; [done|].
      rewrite (pop_returns _ _ _ _ Hok) in Hpop by lia. done.
  - rewrite Z.eqb_eq. split.
    + apply (push_full_throws _ _ _ _ _ Hok).
    + intros Hpush. destruct (decide (size_ q = capacity_ q)) as [|Hne]; [done|].
      rewrite (push_stores _ _ _ _ _ Hok) in Hpush by lia. done.
  - rewrite !Z.eqb_eq. lia.
Qed.

(** X4.  Popping as many times as the queue holds values hands them out
    oldest first, wherever in the array they sit; afterwards [size()] is
    0, [empty()] is true, [full()] is false and a further [pop()] is
    refused. *)
Theorem drain_then_empty this σ q l vs :
  queue_ok σ this q l → linked q → holds q l vs →
  ∃ σ',
    pop_n this (length vs) σ = Ret vs σ' ∧
    size this σ' = Ret 0 σ' ∧
    empty this σ' = Ret true σ' ∧
    full this σ' = Ret false σ' ∧
    pop this σ' = Throw Empty σ'.
Proof.
  intros Hok Hlk Hh. rewrite <- (app_nil_r vs) in Hh.
  destruct (pop_n_ok this vs _ _ _ _ Hok Hlk Hh) as (σ' & q' & Hrun & Hok' & _ & [Hlen _] & _).
  cbn in Hlen. pose proof (ok_ring _ _ _ _ Hok') as (Hf & _ & _).
  exists σ'. split_and!; [done|..].
  - by rewrite (size_eq _ _ _ (ok_object _ _ _ _ Hok')), <- Hlen.
  - rewrite (empty_eq _ _ _ (ok_object _ _ _ _ Hok') (ok_mutex _ _ _ _ Hok')).
    by rewrite <- Hlen.
  - rewrite (full_eq _ _ _ (ok_object _ _ _ _ Hok') (ok_mutex _ _ _ _ Hok')).
    destruct (Z.eqb_spec (size_ q') (capacity_ q')); [lia|done].
  - apply (pop_empty_throws _ _ _ _ Hok'). lia.
Qed.

(** ** push and pop never allocate *)

Lemma apply_op_stable this o σ q l :
  queue_ok σ this q l →
  ∃ σ' q' l',
    after (apply_op this o σ) = Some σ' ∧ queue_ok σ' this q' l' ∧
    items q' = items q ∧ capacity_ q' = capacity_ q ∧
    dom (objects σ') = dom (objects σ) ∧ dom (blocks σ') = dom (blocks σ).
Proof.
  intros Hok. pose proof (ok_ring _ _ _ _ Hok) as (_ & _ & Hs).
  assert (Hdo : ∀ q', dom (<[this := q']> (objects σ)) = dom (objects σ)).
  { intros q'. apply dom_insert_lookup_L. rewrite (ok_object _ _ _ _ Hok). by eexists. }
  destruct o as [v|]; cbn [apply_op].
  - destruct (decide (size_ q = capacity_ q)) as [Hfull|Hroom].
    + rewrite (push_full_throws _ _ _ _ _ Hok Hfull). by exists σ, q, l.
    + assert (Hlt : size_ q < capacity_ q) by lia.
      rewrite (push_stores _ _ _ _ _ Hok Hlt).
      eexists _, _, _. split_and!; [done|by apply push_keeps_ok|done|done|apply Hdo|].
      cbn. apply dom_insert_lookup_L. rewrite (ok_block _ _ _ _ Hok). by eexists.
  - unfold bind. destruct (decide (size_ q = 0)) as [Hz|Hnz].
    + rewrite (pop_empty_throws _ _ _ _ Hok Hz). by exists σ, q, l.
    + assert (Hlt : 0 < size_ q) by lia.
      rewrite (pop_returns _ _ _ _ Hok Hlt).
      eexists _, _, _. split_and!; [done|by apply pop_keeps_ok|done|done|apply Hdo|done].
Qed.

(** X5.  Whatever pushes and pops are run on a well-formed queue, accepted
    or refused, the queue keeps its array and its capacity, and the sets of
    live objects and of live blocks stay as they were: nothing is
    allocated and nothing is released. *)
Theorem push_pop_never_reallocate this (os : list op) σ q l :
  queue_ok σ this q l →
  ∃ σ' q' l',
    run_ops this os σ = Some σ' ∧ queue_ok σ' this q' l' ∧
    items q' = items q ∧ capacity_ q' = capacity_ q ∧
    dom (objects σ') = dom (objects σ) ∧ dom (blocks σ') = dom (blocks σ).
Proof.
  revert σ q l. induction os as [|o os IH]; intros σ q l Hok; cbn [run_ops].
  - by exists σ, q, l.
  - destruct (apply_op_stable this o _ _ _ Hok)
      as (σ1 & q1 & l1 & -> & Hok1 & Hi1 & Hc1 & Ho1 & Hb1).
    destruct (IH _ _ _ Hok1) as (σ2 & q2 & l2 & Hrun & Hok2 & Hi2 & Hc2 & Ho2 & Hb2).
    exists σ2, q2, l2. split_and!; [done..|congruence|congruence|congruence|congruence].
Qed.

(** ** The circular increment as a walk around the array *)

Lemma safe_increment_iter_eq cap (k : nat) : ∀ i,
  0 ≤ i < cap → cap ≤ SIZE_MAX →
  safe_increment_iter cap k i = Some ((i + Z.of_nat k) mod cap).
Proof.
  induction k as [|k IH]; intros i Hi Hc.
  - cbn. by rewrite Z.add_0_r, Z.mod_small.
  - cbn [safe_increment_iter]. rewrite safe_increment_in_range by done.
    rewrite IH by (done || apply Z.mod_pos_bound; lia).
    rewrite Zplus_mod_idemp_l. do 2 f_equal. lia.
Qed.

(** X6.  Started at a valid index, [k] applications of the helper arrive at
    [(index + k) mod capacity]; a full turn of [capacity] applications is
    back at the index it started from. *)
Theorem safe_increment_walks_the_ring cap i (k : nat) :
  0 ≤ i < cap → cap ≤ SIZE_MAX →
  safe_increment_iter cap k i = Some ((i + Z.of_nat k) mod cap) ∧
  safe_increment_iter cap (Z.to_nat cap) i = Some i.
Proof.
  intros Hi Hc. rewrite !safe_increment_iter_eq by done. split; [done|].
  rewrite Z2Nat.id by lia.
  replace (i + cap) with (i + 1 * cap) by lia.
  by rewrite Z_mod_plus_full, Z.mod_small.
Qed.

(** ** Construction and destruction *)

Ltac mstep :=
  repeat (progress (cbn [objects blocks fst snd mutex items capacity_ size_ front back
                          set_mutex set_size set_front set_back adopt];
                    rewrite ?lookup_insert_eq)).

Lemma destroy_eq this σ q l :
  queue_ok σ this q l →
  destroy this σ =
    Ret tt (mkMemory (delete this (objects σ)) (delete (items q) (blocks σ))).
Proof.
  intros [Hq Hm Hb _ _ _]. destruct σ as [objs blks]; cbn [objects blocks] in *.
  unfold destroy, bind at 1, lock_guard. cbn [objects blocks]. rewrite Hq, Hm.
  unfold bind at 1, load, delete_array. mstep. rewrite Hb.
  unfold unlock, modify, bind, load, store, ret. mstep.
  by rewrite !delete_insert_eq.
Qed.

(** Destroying, or reading through, a queue whose block is no longer live. *)
Lemma destroy_dangling this σ q :
  objects σ !! this = Some q → mutex q = false → blocks σ !! items q = None →
  destroy this σ = Undefined.
Proof.
  intros Hq Hm Hb. destruct σ as [objs blks]; cbn [objects blocks] in *.
  unfold destroy, bind at 1, lock_guard. cbn [objects blocks]. rewrite Hq, Hm.
  unfold bind at 1, load, delete_array. mstep. by rewrite Hb.
Qed.

Lemma peek_front_dangling this σ q :
  objects σ !! this = Some q → mutex q = false → blocks σ !! items q = None →
  peek_front_value this σ = Undefined.
Proof.
  intros Hq Hm Hb. unfold peek_front_value, bind.
  rewrite (peek_front_eq _ _ _ Hq Hm). unfold deref, array_read. cbn. by rewrite Hb.
Qed.

(** X7.  The destructor of a well-formed queue returns; afterwards the
    object and its array are gone and every other object and block is as
    before. *)
Theorem destroy_releases_own_block this σ q l :
  queue_ok σ this q l →
  ∃ σ',
    destroy this σ = Ret tt σ' ∧
    objects σ' !! this = None ∧ blocks σ' !! items q = None ∧
    same_elsewhere this (items q) σ σ'.
Proof.
  intros Hok. eexists. split; [apply (destroy_eq _ _ _ _ Hok)|].
  cbn [objects blocks]. split_and!.
  - apply lookup_delete_eq.
  - apply lookup_delete_eq.
  - split; intros ??; cbn; by rewrite lookup_delete_ne.
Qed.

(** X8.  Constructing a queue at an unused address and destroying it again
    leaves memory exactly as it was: the block is released, nothing else
    was touched. *)
Theorem construct_destroy_restores this c σ :
  1 ≤ c ≤ SIZE_MAX → objects σ !! this = None →
  (construct T_default this c ;;; destroy this) σ = Ret tt σ.
Proof.
  intros Hc Hfree.
  destruct (construct_ok T_default this c σ Hc) as (σ1 & q1 & l1 & Hrun & Hok1 & _).
  unfold bind. rewrite Hrun, (destroy_eq _ _ _ _ Hok1).
  rewrite construct_eq in Hrun. destruct (c =? 0); [done|].
  cbv zeta in Hrun. injection Hrun as <-.
  pose proof (ok_object _ _ _ _ Hok1) as Hq1. cbn [objects] in Hq1.
  rewrite lookup_insert_eq in Hq1. injection Hq1 as <-.
  cbn [objects blocks items]. destruct σ as [objs blks]; cbn [objects blocks] in *.
  f_equal. f_equal.
  - by apply delete_insert_id.
  - apply delete_insert_id, not_elem_of_dom, is_fresh.
Qed.

(** ** Copies and moves hand over the stored values *)

(** Two queues with the same members apart from the array pointer, over
    arrays with the same elements, are observed alike. *)
Lemma pop_n_adopt this other p n : ∀ σ σ' q l,
  queue_ok σ this q l → queue_ok σ' other (adopt false p q) l →
  result_of (pop_n this n σ) = result_of (pop_n other n σ').
Proof.
  induction n as [|n IH]; intros σ σ' q l Hok Hok'; [done|].
  cbn [pop_n]. unfold bind at 1 3.
  destruct (decide (size_ q = 0)) as [Hz|Hnz].
  - by rewrite (pop_value_empty _ _ _ _ Hok Hz), (pop_value_empty _ _ _ _ Hok' Hz).
  - assert (Hlt : 0 < size_ q) by (pose proof (ok_ring _ _ _ _ Hok) as (_ & _ & ?); lia).
    destruct (pop_value_returns _ _ _ _ Hok Hlt) as (v & Hv & ->).
    destruct (pop_value_returns _ _ _ _ Hok' Hlt) as (v' & Hv' & ->).
    cbn [front adopt] in Hv'. assert (v' = v) as -> by congruence.
    specialize (IH _ _ (popped q) l (pop_keeps_ok _ _ _ _ Hok Hlt)
                  (pop_keeps_ok _ _ _ _ Hok' Hlt)).
    unfold bind, ret.
    destruct (pop_n this n _) as [vs ?|e ?|], (pop_n other n _) as [vs' ?|e' ?|];
      cbn in *; congruence.
Qed.

Lemma observe_adopt this other p n σ σ' q l :
  queue_ok σ this q l → queue_ok σ' other (adopt false p q) l →
  observe this n σ = observe other n σ'.
Proof.
  intros Hok Hok'. unfold observe.
  rewrite (size_eq _ _ _ (ok_object _ _ _ _ Hok)), (size_eq _ _ _ (ok_object _ _ _ _ Hok')).
  destruct (peek_front_value_eq _ _ _ _ Hok) as (v & Hv & ->).
  destruct (peek_front_value_eq _ _ _ _ Hok') as (v' & Hv' & ->).
  destruct (peek_back_value_eq _ _ _ _ Hok) as (w & Hw & ->).
  destruct (peek_back_value_eq _ _ _ _ Hok') as (w' & Hw' & ->).
  rewrite (pop_n_adopt this other p n σ σ' q l) by done.
  cbn in *. repeat f_equal; congruence.
Qed.



(** The move constructor on a well-formed source, in closed form. *)
Lemma move_construct_eq this queue σ q l :
  queue_ok σ queue q l → this ≠ queue →
  move_construct T_default this queue σ =
    let p := fresh (dom (blocks σ)) in
    Ret tt (mkMemory (<[this := adopt false p q]> (objects σ))
              (delete (items q) (<[p := l]> (blocks σ)))).
Proof.
  intros [Hq Hm Hb Hl Hc (Hf & Hbk & Hs)] Hne. cbv zeta.
  pose proof (fresh_block _ _ _ Hb) as Hp.
  destruct σ as [objs blks]; cbn [objects blocks] in *.
  unfold move_construct, lock_guard. cbn [objects blocks]. rewrite Hq, Hm.
  unfold bind at 1 2 3 4, load, new_array, store. mstep.
  set (p := fresh (dom blks)) in *.
  rewrite (copy_items_all this queue (set_mutex true q)
             (adopt false p (set_mutex true q)) l);
    [|by rewrite lookup_insert_ne, lookup_insert_eq by done|by rewrite lookup_insert_eq
     |done|done|done|lia|lia|rewrite length_replicate; lia].
  unfold bind at 1, load, delete_array. mstep.
  rewrite lookup_insert_ne, lookup_insert_eq by done. mstep.
  rewrite lookup_insert_ne, Hb by done.
  unfold unlock, modify, bind, load, store, ret. mstep.
  rewrite lookup_insert_ne, lookup_insert_eq by done. mstep.
  rewrite unlock_lock by done.
  do 2 f_equal. apply map_eq. intros a.
  rewrite !lookup_insert. repeat case_decide; simplify_eq; done.
Qed.

(** Move assignment between two well-formed queues with different blocks,
    in closed form. *)
Lemma move_assign_eq this queue σ q l qd ld :
  queue_ok σ queue q l → queue_ok σ this qd ld →
  this ≠ queue → items qd ≠ items q →
  move_assign this queue σ =
    Ret this (mkMemory (<[this := adopt false (items q) q]> (objects σ))
                (delete (items qd) (blocks σ))).
Proof.
  intros [Hq Hm Hb Hl Hc (Hf & Hbk & Hs)] [Hqd Hmd Hbd _ _ _] Hne Hitems.
  destruct σ as [objs blks]; cbn [objects blocks] in *.
  unfold move_assign, lock_guard. cbn [objects blocks]. rewrite Hqd, Hmd.
  cbn [objects blocks]. rewrite lookup_insert_ne, Hq, Hm by done.
  case_decide; [done|].
  unfold bind at 1 2 3 4, load, delete_array, modify, store.
  unfold bind at 1, load, store, ret.
  mstep. rewrite lookup_insert_ne by done. mstep. rewrite Hbd. mstep.
  rewrite lookup_insert_ne by done. mstep.
  unfold unlock, modify, bind, load, store, ret. mstep.
  rewrite lookup_insert_ne, lookup_insert_eq by done. mstep.
  rewrite lookup_insert_ne, lookup_insert_eq by done. mstep.
  rewrite unlock_lock by done.
  do 2 f_equal. apply map_eq. intros a.
  rewrite !lookup_insert. repeat case_decide; simplify_eq; done.
Qed.


(** X13.  After the move constructor the source object is still there with
    the members it had, but its array has been released: reading through
    its [peek_front()] and running its destructor are both undefined. *)
Theorem move_construct_source_dangles A B σ qa la :
  queue_ok σ A qa la → B ≠ A →
  ∃ σ1,
    move_construct T_default B A σ = Ret tt σ1 ∧
    objects σ1 !! A = Some qa ∧
    blocks σ1 !! items qa = None ∧
    peek_front_value A σ1 = Undefined ∧
    destroy A σ1 = Undefined.
Proof.
  intros Hok Hne. rewrite (move_construct_eq _ _ _ _ _ Hok Hne). cbv zeta.
  eexists. split; [reflexivity|].
  assert (HA : objects (mkMemory (<[B := adopt false (fresh (dom (blocks σ))) qa]> (objects σ))
                          (delete (items qa) (<[fresh (dom (blocks σ)) := la]> (blocks σ))))
               !! A = Some qa).
  { cbn. rewrite lookup_insert_ne by done. apply Hok. }
  assert (Hgone : blocks (mkMemory (<[B := adopt false (fresh (dom (blocks σ))) qa]> (objects σ))
                          (delete (items qa) (<[fresh (dom (blocks σ)) := la]> (blocks σ))))
                  !! items qa = None).
  { cbn. apply lookup_delete_eq. }
  split_and!; [done|done|..].
  - by apply (peek_front_dangling _ _ qa); [|apply Hok|].
  - by apply (destroy_dangling _ _ qa); [|apply Hok|].
Qed.

(** X14.  Move assignment between two well-formed queues with different
    blocks returns [*this]; the destination takes the source's members and
    the source's array pointer, the only change to the blocks is that the
    destination's old block is released, and the destination then shows
    the size, peek values and pop sequence of the source. *)
Theorem move_assign_takes_block A B σ qa la qb lb n :
  queue_ok σ A qa la → queue_ok σ B qb lb → B ≠ A → items qb ≠ items qa →
  ∃ σ1,
    move_assign B A σ = Ret B σ1 ∧
    objects σ1 !! B = Some (adopt false (items qa) qa) ∧
    blocks σ1 = delete (items qb) (blocks σ) ∧
    observe B n σ1 = observe A n σ ∧
    (∀ a, a ≠ B → objects σ1 !! a = objects σ !! a).
Proof.
  intros Hok Hokb Hne Hitems.
  rewrite (move_assign_eq _ _ _ _ _ _ _ Hok Hokb Hne Hitems).
  eexists. split; [reflexivity|]. cbn [objects blocks]. split_and!.
  - apply lookup_insert_eq.
  - done.
  - symmetry. apply (observe_adopt A B (items qa) n σ _ qa la Hok).
    destruct Hok as [Hq Hm Hb Hl Hc Hr]. split; cbn; try done.
    + by rewrite lookup_insert_eq.
    + by rewrite lookup_delete_ne.
  - intros a Ha. by rewrite lookup_insert_ne.
Qed.

(** X15.  After move assignment source and destination are two live
    objects with the same array pointer; the destructor of either one
    returns, and the destructor of the other is then undefined, in
    whichever order they run. *)
Theorem move_assign_then_destroy_both A B σ qa la qb lb :
  queue_ok σ A qa la → queue_ok σ B qb lb → B ≠ A → items qb ≠ items qa →
  ∃ σ1 qa' qb',
    move_assign B A σ = Ret B σ1 ∧
    objects σ1 !! A = Some qa' ∧ objects σ1 !! B = Some qb' ∧
    items qa' = items qb' ∧
    (∃ σ2, destroy B σ1 = Ret tt σ2 ∧ destroy A σ2 = Undefined) ∧
    (∃ σ2, destroy A σ1 = Ret tt σ2 ∧ destroy B σ2 = Undefined).
Proof.
  intros Hok Hokb Hne Hitems.
  rewrite (move_assign_eq _ _ _ _ _ _ _ Hok Hokb Hne Hitems).
  set (σ1 := mkMemory _ _).
  assert (HokA : queue_ok σ1 A qa la).
  { destruct Hok as [Hq Hm Hb Hl Hc Hr]. split; cbn; try done.
    - by rewrite lookup_insert_ne.
    - by rewrite lookup_delete_ne. }
  assert (HokB : queue_ok σ1 B (adopt false (items qa) qa) la).
  { destruct Hok as [Hq Hm Hb Hl Hc Hr]. split; cbn; try done.
    - by rewrite lookup_insert_eq.
    - by rewrite lookup_delete_ne. }
  exists σ1, qa, (adopt false (items qa) qa).
  split_and!; [done|apply HokA|apply HokB|done|..].
  - eexists. split; [apply (destroy_eq _ _ _ _ HokB)|].
    apply (destroy_dangling _ _ qa); cbn.
    + rewrite lookup_delete_ne by done. apply HokA.
    + apply Hok.
    + apply lookup_delete_eq.
  - eexists. split; [apply (destroy_eq _ _ _ _ HokA)|].
    apply (destroy_dangling _ _ (adopt false (items qa) qa)); cbn.
    + rewrite lookup_delete_ne by done. apply HokB.
    + done.
    + apply lookup_delete_eq.
Qed.

(** X16.  Assigning a queue to itself, by copy or by move, never reaches
    the comparison of [this] with [&queue]: the second guard locks the
    mutex the first guard already holds, which is undefined. *)
Theorem self_assignment_undefined this σ :
  copy_assign T_default this this σ = Undefined ∧
  move_assign this this σ = Undefined.
Proof.
  split; unfold copy_assign, move_assign, lock_guard;
    (destruct (objects σ !! this) as [q|]; [|done]);
    (destruct (mutex q); [done|]);
    cbn [objects blocks]; by rewrite lookup_insert_eq.
Qed.

(** X17.  [peek_front()] and [peek_back()] are never refused on a
    well-formed queue, whatever its size, the empty queue included: they
    return the content of slot [front] and of slot [back] and leave memory
    as it was. *)
Theorem peek_never_refuses this σ q l :
  queue_ok σ this q l →
  ∃ v w,
    l !! Z.to_nat (front q) = Some v ∧ l !! Z.to_nat (back q) = Some w ∧
    peek_front this σ = Ret (items q, front q) σ ∧
    peek_back this σ = Ret (items q, back q) σ ∧
    peek_front_value this σ = Ret v σ ∧
    peek_back_value this σ = Ret w σ.
Proof.
  intros Hok.
  destruct (peek_front_value_eq _ _ _ _ Hok) as (v & Hv & Hpf).
  destruct (peek_back_value_eq _ _ _ _ Hok) as (w & Hw & Hpb).
  exists v, w. split_and!; try done.
  - apply peek_front_eq; apply Hok.
  - apply peek_back_eq; apply Hok.
Qed.

End Further.

(** * The member functions on concrete queues *)

Module Run.

Import Example.

Lemma mem3_ok : queue_ok mem3 A q3 [0; 0; 0].
Proof. split; [reflexivity..|by vm_compute|unfold ring_inv; cbn; lia]. Qed.

Lemma mem32_ok_A : queue_ok mem32 A q3 [0; 0; 0].
Proof. split; [reflexivity..|by vm_compute|unfold ring_inv; cbn; lia]. Qed.

Lemma mem32_ok_B : queue_ok mem32 B q2 [0; 0].
Proof. split; [reflexivity..|by vm_compute|unfold ring_inv; cbn; lia]. Qed.

Lemma mem3_inv : state_inv mem3.
Proof.
  intros a q Hq. unfold mem3 in Hq; cbn [objects] in Hq.
  apply lookup_singleton_Some in Hq as [_ <-]. unfold ring_inv; cbn. lia.
Qed.

(** The worked example of the specification: capacity 3; pushes of 1, 2, 3
    succeed and a push of 4 is refused; a pop hands out 1, after which the
    push of 4 succeeds; the next pops hand out 2, 3, 4; then the queue is
    empty and a pop is refused. *)
Example spec_scenario :
  ∃ σ1 σ2,
    (construct 0 A 3 ;;; push_all A [1; 2; 3]) blank = Ret tt σ1 ∧
    push A 4 σ1 = Throw Full σ1 ∧
    (v <~ pop_value A ;; push A 4 ;;; vs <~ pop_n A 3 ;; ret (v, vs)) σ1
      = Ret (1, [2; 3; 4]) σ2 ∧
    empty A σ2 = Ret true σ2 ∧
    pop A σ2 = Throw Empty σ2.
Proof.
  eexists _, _. split_and!.
  - vm_compute; reflexivity.
  - vm_compute; reflexivity.
  - vm_compute; reflexivity.
  - vm_compute; reflexivity.
  - vm_compute; reflexivity.
Qed.

(** Both guards of the assignment operators are taken before [this] is
    compared with [&queue], so assigning a queue to itself locks its mutex
    twice. *)
Remark self_assignment_locks_twice :
  copy_assign 0 A A mem3 = Undefined ∧ move_assign A A mem3 = Undefined.
Proof. split; (vm_compute; reflexivity). Qed.

(** C2.  On a queue of capacity 3 that was pushed to once and popped once,
    [size()] is 0 and [pop()] throws the empty-queue error, but
    [peek_front()] and [peek_back()] return references: the first reads a
    default element, the second reads the value that was already popped. *)
Theorem peek_on_empty_returns :
  ∃ σ, drained blank = Ret tt σ ∧
       size A σ = Ret 0 σ ∧
       pop A σ = Throw Empty σ ∧
       peek_front A σ = Ret (1%positive, 1) σ ∧
       peek_back A σ = Ret (1%positive, 0) σ ∧
       peek_front_value A σ = Ret 0 σ ∧
       peek_back_value A σ = Ret 7 σ.
Proof. eexists. split_and!; [vm_compute; reflexivity|..]. all: vm_compute; reflexivity. Qed.

(** C4.  Moving a queue of capacity 2 holding one element.
    The move constructor gives the destination a new block filled element by
    element, releases the source's block and leaves the source's members as
    they were: capacity 2, size 1, and a pointer to the released block, so
    that destroying the source is undefined.
    Move assignment gives the destination the source's pointer and leaves
    the source as it was, so both objects own block 1: a push through one
    changes what the other reads, and destroying both is undefined. *)
Theorem move_leaves_source_unsafe :
  (∃ σ, moved_by_constructor blank = Ret tt σ ∧
        objects σ !! A = Some (mkQueue false 1%positive 2 1 0 0) ∧
        objects σ !! B = Some (mkQueue false 2%positive 2 1 0 0) ∧
        blocks σ !! 1%positive = None ∧
        blocks σ !! 2%positive = Some [5; 0] ∧
        peek_front_value A σ = Undefined ∧
        destroy A σ = Undefined) ∧
  (∃ σ, moved_by_assignment blank = Ret B σ ∧
        objects σ !! A = Some (mkQueue false 1%positive 2 1 0 0) ∧
        objects σ !! B = Some (mkQueue false 1%positive 2 1 0 0) ∧
        blocks σ !! 1%positive = Some [5; 0] ∧
        result_of ((push A 9 ;;; peek_back_value A) σ) = Some (inl 9) ∧
        result_of ((push A 9 ;;; push B 8 ;;; peek_back_value A) σ) = Some (inl 8) ∧
        (destroy B ;;; destroy A) σ = Undefined).
Proof. split; eexists; (split_and!; [vm_compute; reflexivity|..]). all: vm_compute; reflexivity. Qed.

(** ** Instances of the general theorems *)

Lemma mem3_one_ok : queue_ok mem3_one A q3_one [7; 0; 0].
Proof. split; [reflexivity..|by vm_compute|unfold ring_inv; cbn; lia]. Qed.

Lemma fifo_order_witness :
  (1 ≤ 3 ≤ SIZE_MAX ∧ Z.of_nat (length [10; 20; 30]) ≤ 3) ∧
  ∃ σ', (construct 0 A 3 ;;; push_all A [10; 20; 30] ;;; pop_n A 3) blank
        = Ret [10; 20; 30] σ'.
Proof.
  split; [split; by vm_compute|].
  apply (fifo_order 0 A 3 [10; 20; 30] blank); by vm_compute.
Defined.

Lemma push_full_or_store_witness :
  queue_ok mem3 A q3 [0; 0; 0] ∧
  (∀ e σ', push A 7 mem3 = Throw e σ' ↔ size_ q3 = capacity_ q3 ∧ e = Full ∧ σ' = mem3) ∧
  (size_ q3 < capacity_ q3 →
   push A 7 mem3 =
     Ret tt (mkMemory
               (<[A := mkQueue false (items q3) (capacity_ q3) (size_ q3 + 1) (front q3)
                         ((back q3 + 1) mod capacity_ q3)]> (objects mem3))
               (<[items q3 := <[Z.to_nat ((back q3 + 1) mod capacity_ q3) := 7]> [0; 0; 0]]>
                  (blocks mem3)))) ∧
  push_move A 7 mem3 = push A 7 mem3.
Proof.
  split; [exact mem3_ok|]. exact (push_full_or_store A 7 mem3 q3 [0; 0; 0] mem3_ok).
Defined.

Lemma safe_increment_is_modulo_witness :
  (0 ≤ 2 < 3 ∧ 3 ≤ SIZE_MAX) ∧
  safe_increment 3 2 = Some (spec_circular_advance 3 2) ∧
  safe_increment 3 2 = increment_without_sentinel 3 2.
Proof.
  split; [split; [lia|by vm_compute]|].
  apply (safe_increment_is_modulo 3 2); [lia|by vm_compute].
Defined.

Lemma invariant_preserved_witness :
  state_inv mem3 ∧
  (∀ this c, is_size_t c → post state_inv (construct 0 this c mem3)) ∧
  (∀ this v, post state_inv (push this v mem3)) ∧
  (∀ this v, post state_inv (push_move this v mem3)) ∧
  (∀ this, post state_inv (pop this mem3)) ∧
  (∀ this, post state_inv (peek_front this mem3)) ∧
  (∀ this, post state_inv (peek_back this mem3)) ∧
  (∀ this queue, post state_inv (copy_construct 0 this queue mem3)) ∧
  (∀ this queue, post state_inv (copy_assign 0 this queue mem3)) ∧
  (∀ this queue, post state_inv (move_construct 0 this queue mem3)) ∧
  (∀ this queue, post state_inv (move_assign this queue mem3)).
Proof.
  split; [exact mem3_inv|]. exact (invariant_preserved 0 mem3 mem3_inv).
Defined.

Lemma capacity_boundary_witness :
  (1 ≤ 3 ≤ SIZE_MAX ∧ Z.of_nat (length [1; 2; 3]) = 3) ∧
  ∃ σ1 r σ2 σ3,
    (construct 0 A 3 ;;; push_all A [1; 2; 3]) blank = Ret tt σ1 ∧
    full A σ1 = Ret true σ1 ∧
    push A 4 σ1 = Throw Full σ1 ∧
    pop A σ1 = Ret r σ2 ∧
    push A 4 σ2 = Ret tt σ3 ∧
    push A 5 σ3 = Throw Full σ3.
Proof.
  split; [split; by vm_compute|].
  apply (capacity_boundary 0 A 3 [1; 2; 3] 4 4 5 blank); by vm_compute.
Defined.

Lemma mem32_blocks_differ : items q2 ≠ items q3.
Proof. discriminate. Qed.

Lemma B_is_not_A : B ≠ A.
Proof. discriminate. Qed.

Lemma copy_independence_witness :
  (queue_ok mem32 A q3 [0; 0; 0] ∧ B ≠ A ∧
   queue_ok mem32 B q2 [0; 0] ∧ items q2 ≠ items q3) ∧
  (∃ σ1, copy_construct 0 B A mem32 = Ret tt σ1 ∧
     (∃ σ2, run_ops B [OpPush 1; OpPop; OpPush 2] σ1 = Some σ2 ∧
            observe A 3 σ2 = observe A 3 σ1) ∧
     (∃ σ2, run_ops A [OpPush 1; OpPop; OpPush 2] σ1 = Some σ2 ∧
            observe B 3 σ2 = observe B 3 σ1)) ∧
  (∃ σ1, copy_assign 0 B A mem32 = Ret B σ1 ∧
     (∃ σ2, run_ops B [OpPush 1; OpPop; OpPush 2] σ1 = Some σ2 ∧
            observe A 3 σ2 = observe A 3 σ1) ∧
     (∃ σ2, run_ops A [OpPush 1; OpPop; OpPush 2] σ1 = Some σ2 ∧
            observe B 3 σ2 = observe B 3 σ1)).
Proof.
  split; [exact (conj mem32_ok_A (conj B_is_not_A (conj mem32_ok_B mem32_blocks_differ)))|].
  destruct (copy_independence 0 A B mem32 q3 [0; 0; 0] [OpPush 1; OpPop; OpPush 2] 3
              mem32_ok_A B_is_not_A) as [Hctor Hassign].
  split; [exact Hctor|]. exact (Hassign q2 [0; 0] mem32_ok_B mem32_blocks_differ).
Defined.

Lemma one_is_positive : 0 < size_ q3_one.
Proof. reflexivity. Qed.

Lemma pop_frame_witness :
  (queue_ok mem3_one A q3_one [7; 0; 0] ∧ 0 < size_ q3_one) ∧
  ∃ σ' v,
    pop A mem3_one = Ret (items q3_one, front q3_one) σ' ∧
    objects σ' =
      <[A := mkQueue (mutex q3_one) (items q3_one) (capacity_ q3_one) (size_ q3_one - 1)
               ((front q3_one + 1) mod capacity_ q3_one) (back q3_one)]> (objects mem3_one) ∧
    blocks σ' = blocks mem3_one ∧
    [7; 0; 0] !! Z.to_nat (front q3_one) = Some v ∧
    deref (items q3_one, front q3_one) σ' = Ret v σ' ∧
    ∀ w, ∃ σ'',
      push A w σ' = Ret tt σ'' ∧
      deref (items q3_one, front q3_one) σ'' =
        Ret (if decide ((back q3_one + 1) mod capacity_ q3_one = front q3_one)
             then w else v) σ''.
Proof.
  split; [exact (conj mem3_one_ok one_is_positive)|].
  exact (pop_frame A mem3_one q3_one [7; 0; 0] mem3_one_ok one_is_positive).
Defined.

(** Two constructions with a capacity of at least 1 that do not succeed:
    [ConcurrentQueue<int> a(3)] when the free store refuses twelve bytes,
    and [ConcurrentQueue<int> a(SIZE_MAX)], whose byte count is not
    representable, whatever the free store would answer.  Both throw the
    allocation failure and leave no queue behind. *)
Lemma construct_can_fail :
  (1 ≤ 3 ∧
   construct_alloc 4 Refused A 3 blank = Throw bad_alloc blank ∧
   ¬ ∃ σ', construct_alloc 4 Refused A 3 blank = Ret tt σ') ∧
  (1 ≤ SIZE_MAX ∧
   construct_alloc 4 (Supplied (λ _, 0)) A SIZE_MAX blank = Throw bad_alloc blank ∧
   ¬ ∃ σ', construct_alloc 4 (Supplied (λ _, 0)) A SIZE_MAX blank = Ret tt σ').
Proof.
  assert (H1 : construct_alloc 4 Refused A 3 blank = Throw bad_alloc blank)
    by (vm_compute; reflexivity).
  assert (H2 : construct_alloc 4 (Supplied (λ _, 0)) A SIZE_MAX blank
               = Throw bad_alloc blank) by (vm_compute; reflexivity).
  split; (split; [by vm_compute|split; [done|]]).
  - rewrite H1. by intros [? ?].
  - rewrite H2. by intros [? ?].
Qed.

Lemma three_in_range : 1 ≤ 3 ≤ SIZE_MAX.
Proof. by vm_compute. Qed.

Lemma construct_zero_or_allocated_witness :
  1 ≤ 3 ≤ SIZE_MAX ∧
  construct_alloc 4 (Supplied (λ i, Z.of_nat i + 40)) A 0 blank
    = Throw InvalidCapacity blank ∧
  (3 * 4 ≤ SIZE_MAX → ∀ content, Supplied (λ i, Z.of_nat i + 40) = Supplied content →
   ∃ σ', construct_alloc 4 (Supplied (λ i, Z.of_nat i + 40)) A 3 blank = Ret tt σ' ∧
         size A σ' = Ret 0 σ' ∧ capacity A σ' = Ret 3 σ') ∧
  (SIZE_MAX < 3 * 4 ∨ Supplied (λ i, Z.of_nat i + 40) = Refused →
   construct_alloc 4 (Supplied (λ i, Z.of_nat i + 40)) A 3 blank = Throw bad_alloc blank).
Proof.
  split; [exact three_in_range|].
  exact (construct_zero_or_allocated 4 (Supplied (λ i, Z.of_nat i + 40)) A 3 blank
           three_in_range).
Defined.

End Run.

(** * Instances of the further properties *)

Module RunFurther.

Import Example.

Lemma mem3_one_wf : queue_ok mem3_one A q3_one [7; 0; 0].
Proof. split; [reflexivity..|by vm_compute|unfold ring_inv; cbn; lia]. Qed.

Lemma q3_one_linked : linked q3_one.
Proof. reflexivity. Qed.

Lemma q3_one_holds : holds q3_one [7; 0; 0] [7].
Proof.
  split; [reflexivity|]. intros [|k] v Hk; [|by destruct k].
  by injection Hk as <-.
Qed.

Lemma mem3_wf : queue_ok mem3 A q3 [0; 0; 0].
Proof. split; [reflexivity..|by vm_compute|unfold ring_inv; cbn; lia]. Qed.

Lemma mem32_one_ok_A : queue_ok mem32_one A q3_one [7; 0; 0].
Proof. split; [reflexivity..|by vm_compute|unfold ring_inv; cbn; lia]. Qed.

Lemma mem32_one_ok_B : queue_ok mem32_one B q2 [0; 0].
Proof. split; [reflexivity..|by vm_compute|unfold ring_inv; cbn; lia]. Qed.

Lemma three_fits : 1 ≤ 3 ≤ SIZE_MAX.
Proof. by vm_compute. Qed.

Lemma B_differs : B ≠ A.
Proof. discriminate. Qed.

Lemma blocks_differ : items q2 ≠ items q3_one.
Proof. discriminate. Qed.

Lemma A_unused : objects blank !! A = None.
Proof. reflexivity. Qed.

Lemma fresh_queue_is_bounded_fifo_witness :
  1 ≤ 3 ≤ SIZE_MAX ∧
  ∃ σ1 σ2,
    construct 0 A 3 blank = Ret tt σ1 ∧
    trace A busy σ1 = Some ((fifo_run 3 busy []).1, σ2) ∧
    size A σ2 = Ret (Z.of_nat (length (fifo_run 3 busy []).2)) σ2.
Proof.
  split; [exact three_fits|].
  exact (fresh_queue_is_bounded_fifo 0 A 3 busy blank three_fits).
Defined.

Lemma peek_reads_oldest_and_newest_witness :
  (queue_ok mem3_one A q3_one [7; 0; 0] ∧ linked q3_one ∧
   holds q3_one [7; 0; 0] [7] ∧ head [7] = Some 7 ∧ last [7] = Some 7) ∧
  peek_front_value A mem3_one = Ret 7 mem3_one ∧
  peek_back_value A mem3_one = Ret 7 mem3_one.
Proof.
  split; [exact (conj mem3_one_wf (conj q3_one_linked
                   (conj q3_one_holds (conj eq_refl eq_refl))))|].
  exact (peek_reads_oldest_and_newest A mem3_one q3_one [7; 0; 0] [7] 7 7
           mem3_one_wf q3_one_linked q3_one_holds eq_refl eq_refl).
Defined.

Lemma empty_full_agree_with_pop_push_witness :
  queue_ok mem3_one A q3_one [7; 0; 0] ∧
  ∃ e f,
    empty A mem3_one = Ret e mem3_one ∧ full A mem3_one = Ret f mem3_one ∧
    (e = true ↔ pop A mem3_one = Throw Empty mem3_one) ∧
    (f = true ↔ push A 9 mem3_one = Throw Full mem3_one) ∧
    ¬ (e = true ∧ f = true).
Proof.
  split; [exact mem3_one_wf|].
  exact (empty_full_agree_with_pop_push A 9 mem3_one q3_one [7; 0; 0] mem3_one_wf).
Defined.

Lemma drain_then_empty_witness :
  (queue_ok mem3_one A q3_one [7; 0; 0] ∧ linked q3_one ∧ holds q3_one [7; 0; 0] [7]) ∧
  ∃ σ',
    pop_n A (length [7]) mem3_one = Ret [7] σ' ∧
    size A σ' = Ret 0 σ' ∧
    empty A σ' = Ret true σ' ∧
    full A σ' = Ret false σ' ∧
    pop A σ' = Throw Empty σ'.
Proof.
  split; [exact (conj mem3_one_wf (conj q3_one_linked q3_one_holds))|].
  exact (drain_then_empty A mem3_one q3_one [7; 0; 0] [7]
           mem3_one_wf q3_one_linked q3_one_holds).
Defined.

Lemma push_pop_never_reallocate_witness :
  queue_ok mem3_one A q3_one [7; 0; 0] ∧
  ∃ σ' q' l',
    run_ops A busy mem3_one = Some σ' ∧ queue_ok σ' A q' l' ∧
    items q' = items q3_one ∧ capacity_ q' = capacity_ q3_one ∧
    dom (objects σ') = dom (objects mem3_one) ∧ dom (blocks σ') = dom (blocks mem3_one).
Proof.
  split; [exact mem3_one_wf|].
  exact (push_pop_never_reallocate A busy mem3_one q3_one [7; 0; 0] mem3_one_wf).
Defined.

Lemma two_in_range : 0 ≤ 2 < 3.
Proof. lia. Qed.

Lemma three_below_max : 3 ≤ SIZE_MAX.
Proof. by vm_compute. Qed.

Lemma safe_increment_walks_the_ring_witness :
  (0 ≤ 2 < 3 ∧ 3 ≤ SIZE_MAX) ∧
  safe_increment_iter 3 5 2 = Some ((2 + Z.of_nat 5) mod 3) ∧
  safe_increment_iter 3 (Z.to_nat 3) 2 = Some 2.
Proof.
  split; [exact (conj two_in_range three_below_max)|].
  exact (safe_increment_walks_the_ring 3 2 5 two_in_range three_below_max).
Defined.

Lemma destroy_releases_own_block_witness :
  queue_ok mem32_one A q3_one [7; 0; 0] ∧
  ∃ σ',
    destroy A mem32_one = Ret tt σ' ∧
    objects σ' !! A = None ∧ blocks σ' !! items q3_one = None ∧
    same_elsewhere A (items q3_one) mem32_one σ'.
Proof.
  split; [exact mem32_one_ok_A|].
  exact (destroy_releases_own_block A mem32_one q3_one [7; 0; 0] mem32_one_ok_A).
Defined.

Lemma construct_destroy_restores_witness :
  (1 ≤ 3 ≤ SIZE_MAX ∧ objects blank !! A = None) ∧
  (construct 0 A 3 ;;; destroy A) blank = Ret tt blank.
Proof.
  split; [exact (conj three_fits A_unused)|].
  exact (construct_destroy_restores 0 A 3 blank three_fits A_unused).
Defined.




Lemma move_construct_source_dangles_witness :
  (queue_ok mem3_one A q3_one [7; 0; 0] ∧ B ≠ A) ∧
  ∃ σ1,
    move_construct 0 B A mem3_one = Ret tt σ1 ∧
    objects σ1 !! A = Some q3_one ∧
    blocks σ1 !! items q3_one = None ∧
    peek_front_value A σ1 = Undefined ∧
    destroy A σ1 = Undefined.
Proof.
  split; [exact (conj mem3_one_wf B_differs)|].
  exact (move_construct_source_dangles 0 A B mem3_one q3_one [7; 0; 0] mem3_one_wf B_differs).
Defined.

Lemma move_assign_takes_block_witness :
  (queue_ok mem32_one A q3_one [7; 0; 0] ∧ queue_ok mem32_one B q2 [0; 0] ∧
   B ≠ A ∧ items q2 ≠ items q3_one) ∧
  ∃ σ1,
    move_assign B A mem32_one = Ret B σ1 ∧
    objects σ1 !! B = Some (adopt false (items q3_one) q3_one) ∧
    blocks σ1 = delete (items q2) (blocks mem32_one) ∧
    observe B 2 σ1 = observe A 2 mem32_one ∧
    (∀ a, a ≠ B → objects σ1 !! a = objects mem32_one !! a).
Proof.
  split; [exact (conj mem32_one_ok_A (conj mem32_one_ok_B (conj B_differs blocks_differ)))|].
  exact (move_assign_takes_block A B mem32_one q3_one [7; 0; 0] q2 [0; 0] 2
           mem32_one_ok_A mem32_one_ok_B B_differs blocks_differ).
Defined.

Lemma move_assign_then_destroy_both_witness :
  (queue_ok mem32_one A q3_one [7; 0; 0] ∧ queue_ok mem32_one B q2 [0; 0] ∧
   B ≠ A ∧ items q2 ≠ items q3_one) ∧
  ∃ σ1 qa' qb',
    move_assign B A mem32_one = Ret B σ1 ∧
    objects σ1 !! A = Some qa' ∧ objects σ1 !! B = Some qb' ∧
    items qa' = items qb' ∧
    (∃ σ2, destroy B σ1 = Ret tt σ2 ∧ destroy A σ2 = Undefined) ∧
    (∃ σ2, destroy A σ1 = Ret tt σ2 ∧ destroy B σ2 = Undefined).
Proof.
  split; [exact (conj mem32_one_ok_A (conj mem32_one_ok_B (conj B_differs blocks_differ)))|].
  exact (move_assign_then_destroy_both A B mem32_one q3_one [7; 0; 0] q2 [0; 0]
           mem32_one_ok_A mem32_one_ok_B B_differs blocks_differ).
Defined.

Lemma peek_never_refuses_witness :
  queue_ok mem3 A q3 [0; 0; 0] ∧
  ∃ v w,
    [0; 0; 0] !! Z.to_nat (front q3) = Some v ∧ [0; 0; 0] !! Z.to_nat (back q3) = Some w ∧
    peek_front A mem3 = Ret (items q3, front q3) mem3 ∧
    peek_back A mem3 = Ret (items q3, back q3) mem3 ∧
    peek_front_value A mem3 = Ret v mem3 ∧
    peek_back_value A mem3 = Ret w mem3.
Proof.
  split; [exact mem3_wf|].
  exact (peek_never_refuses A mem3 q3 [0; 0; 0] mem3_wf).
Defined.

End RunFurther.
